(** * Media ownership extractor: identifier normalisation, relationship
      graph and indirect ownership

    A shallow embedding of [src/build.py] ([MediaOwnershipExtractor]) and
    of the parts of the graph library it calls, followed by the properties
    of the specification that were checked against it.

    Conventions of the embedding.
    - A Python [str] is a [string]; its characters are the bytes of the
      UTF-8 text.  [sanitize_id] gives the same identifier on bytes as on
      code points, since every byte of a non-ASCII character is outside
      [A-Za-z0-9] and runs of the separator are collapsed afterwards.
    - A Python [dict] is an association list in insertion order with unique
      keys ([dict_set] keeps the position of a key that is overwritten).
    - A Python [float] is a primitive binary64 [float]; the integer literal
      [0] used as default percentage is the constructor [PInt0].
    - An exception is a value of [exn]; code inside a [try] returns a
      result together with the state mutated so far. *)

From Stdlib Require Import ZArith NArith List String Ascii Bool Lia DecimalString.
From Stdlib Require Import PrimFloat FloatOps SpecFloat.
Import ListNotations.
Local Open Scope string_scope.
Local Open Scope list_scope.

(** ** Identifier normaliser: [MediaOwnershipExtractor.sanitize_id] *)

Module Normalizer.

Definition underscore : ascii := "_"%char.

Definition in_range (lo hi : N) (c : ascii) : bool :=
  (N.leb lo (N_of_ascii c) && N.leb (N_of_ascii c) hi)%bool.

Definition is_upper : ascii -> bool := in_range 65 90.
Definition is_lower : ascii -> bool := in_range 97 122.
Definition is_digit : ascii -> bool := in_range 48 57.

(** The complement of the character class [[^a-zA-Z0-9]]. *)
Definition is_alnum (c : ascii) : bool :=
  (is_lower c || is_upper c || is_digit c)%bool.

(** [re.sub(r'[^a-zA-Z0-9]', '_', name)] *)
Definition sub_special (l : list ascii) : list ascii :=
  map (fun c => if is_alnum c then c else underscore) l.

(** [str.lower()], on the characters left by [sub_special]. *)
Definition lower_char (c : ascii) : ascii :=
  if is_upper c then ascii_of_N (N_of_ascii c + 32) else c.

Definition lower (l : list ascii) : list ascii := map lower_char l.

(** [re.sub(r'_+', '_', sanitized)]: every maximal run of separators
    becomes one separator. *)
Fixpoint collapse (l : list ascii) : list ascii :=
  match l with
  | [] => []
  | c :: r =>
      if Ascii.eqb c underscore then
        match r with
        | d :: _ => if Ascii.eqb d underscore then collapse r
                    else c :: collapse r
        | [] => c :: collapse r
        end
      else c :: collapse r
  end.

Fixpoint lstrip (l : list ascii) : list ascii :=
  match l with
  | [] => []
  | c :: r => if Ascii.eqb c underscore then lstrip r else l
  end.

Definition rstrip (l : list ascii) : list ascii := rev (lstrip (rev l)).

(** [sanitized.strip('_')] *)
Definition strip (l : list ascii) : list ascii := rstrip (lstrip l).

(** [sanitize_id(self, name)].  [not name] holds of the empty string (and
    of [None], which no caller passes). *)
Definition sanitize_id (name : string) : string :=
  match name with
  | EmptyString => "unknown"
  | _ =>
      let sanitized := sub_special (list_ascii_of_string name) in
      let sanitized := lower sanitized in
      let sanitized := collapse sanitized in
      let sanitized := strip sanitized in
      string_of_list_ascii sanitized
  end.

(** Strings with no ASCII letter or digit. *)
Definition no_alnum (name : string) : Prop :=
  Forall (fun c => is_alnum c = false) (list_ascii_of_string name).

(** Characters of a normalised identifier: [a-z0-9_]. *)
Definition id_char (c : ascii) : bool :=
  (is_lower c || is_digit c || Ascii.eqb c underscore)%bool.

(** No two separators in a row. *)
Fixpoint no_adj (l : list ascii) : Prop :=
  match l with
  | [] => True
  | c :: r =>
      match r with
      | d :: _ => ~ (c = underscore /\ d = underscore)
      | [] => True
      end /\ no_adj r
  end.

(** The normal form computed from the characters of a non-empty name. *)
Definition normal_form (l : list ascii) : list ascii :=
  strip (collapse (lower (sub_special l))).

End Normalizer.

(** ** Python values used by the extractor *)

Module Py.

(** Exceptions that the modelled code can raise. *)
Inductive exn : Type :=
| NodeNotFound (source target : string)
| KeyError (key : string).

Inductive result (A : Type) : Type :=
| Ok (a : A)
| Raise (e : exn).
Arguments Ok {A} a.
Arguments Raise {A} e.

(** A percentage is the integer literal [0] or a float. *)
Inductive number : Type :=
| PInt0
| PFloat (f : float).

Definition to_float (n : number) : float :=
  match n with
  | PInt0 => 0%float
  | PFloat f => f
  end.

Section Dict.
Context {V : Type}.

Definition dict : Type := list (string * V).

Definition keys (d : dict) : list string := map fst d.
Definition values (d : dict) : list V := map snd d.

Fixpoint dict_get (k : string) (d : dict) : option V :=
    match d with
    | [] => None
    | (k', v) :: r => if String.eqb k k' then Some v else dict_get k r
    end.

Definition dict_mem (k : string) (d : dict) : bool :=
    match dict_get k d with Some _ => true | None => false end.

  (** [d[k] = v]: an existing key keeps its position. *)
Fixpoint dict_set (k : string) (v : V) (d : dict) : dict :=
    match d with
    | [] => [(k, v)]
    | (k', v') :: r =>
        if String.eqb k k' then (k, v) :: r else (k', v') :: dict_set k v r
    end.
End Dict.
Arguments dict V : clear implicits.

(** *** [format(x, '.2f')]

    The decimal expansion of the exact binary value, rounded to two
    places, ties to even. *)

Definition digits (n : N) : string :=
  DecimalString.NilZero.string_of_uint (N.to_uint n).

Definition two_digits (n : N) : string :=
  if N.ltb n 10 then "0" ++ digits n else digits n.

(** [m * 2^e * 100] rounded to the nearest integer, ties to even. *)
Definition round_hundredths (m : positive) (e : Z) : N :=
  let n := (Npos m * 100)%N in
  match e with
  | Z0 => n
  | Zpos p => (n * 2 ^ Npos p)%N
  | Zneg p =>
      let d := (2 ^ Npos p)%N in
      let q := (n / d)%N in
      let r := (n mod d)%N in
      match (2 * r ?= d)%N with
      | Lt => q
      | Gt => (q + 1)%N
      | Eq => if N.even q then q else (q + 1)%N
      end
  end.

Definition format_2f (x : float) : string :=
  match Prim2SF x with
  | S754_nan => "nan"
  | S754_infinity s => if s then "-inf" else "inf"
  | S754_zero s => if s then "-0.00" else "0.00"
  | S754_finite s m e =>
      let n := round_hundredths m e in
      (if s then "-" else "") ++ digits (n / 100) ++ "." ++ two_digits (n mod 100)
  end.

End Py.

(** ** The directed graph of the graph library ([nx.DiGraph]) *)

Module Nx.
Import Py.

(** Relationship types, the values of the [type] attribute. *)
Inductive rel_type : Type :=
| owns | indirect_owns | family_relation | spouse | child | sibling | parent.

Definition rel_type_eqb (a b : rel_type) : bool :=
  match a, b with
  | owns, owns | indirect_owns, indirect_owns
  | family_relation, family_relation | spouse, spouse
  | child, child | sibling, sibling | parent, parent => true
  | _, _ => false
  end.

Definition or_else {A : Type} (new old : option A) : option A :=
  match new with Some _ => new | None => old end.

(** Attribute dictionary of a node; an absent key is [None]. *)
Record nattr : Type := mk_nattr {
  n_name : option string;
  n_type : option string;
  n_description : option string;
  n_image_url : option string;
  n_media_type : option string }.

Definition nattr_empty : nattr := mk_nattr None None None None None.

(** [old.update(new)] *)
Definition nattr_update (old new : nattr) : nattr :=
  mk_nattr (or_else (n_name new) (n_name old))
           (or_else (n_type new) (n_type old))
           (or_else (n_description new) (n_description old))
           (or_else (n_image_url new) (n_image_url old))
           (or_else (n_media_type new) (n_media_type old)).

(** Attribute dictionary of an edge; an absent key is [None]. *)
Record edata : Type := mk_edata {
  e_type : option rel_type;
  e_percentage : option number;
  e_description : option string }.

Definition edata_empty : edata := mk_edata None None None.

Definition edata_update (old new : edata) : edata :=
  mk_edata (or_else (e_type new) (e_type old))
           (or_else (e_percentage new) (e_percentage old))
           (or_else (e_description new) (e_description old)).

(** [_node] maps a node to its attributes, [_succ] maps a node to the
    dictionary of its successors; both have the nodes as keys, in the order
    in which the nodes were added.  One edge dictionary per ordered pair. *)
Record DiGraph : Type := mk_graph {
  _node : dict nattr;
  _succ : dict (dict edata) }.

Definition empty_graph : DiGraph := mk_graph [] [].

(** [n in G] *)
Definition has_node (g : DiGraph) (n : string) : bool := dict_mem n (_succ g).

(** The part of [add_node] and [add_edge] that adds a missing node. *)
Definition ensure_node (n : string) (g : DiGraph) : DiGraph :=
  if has_node g n then g
  else mk_graph (dict_set n nattr_empty (_node g)) (dict_set n [] (_succ g)).

(** [G.add_node(n, **attr)] *)
Definition add_node (n : string) (attr : nattr) (g : DiGraph) : DiGraph :=
  let g := ensure_node n g in
  let old := match dict_get n (_node g) with Some a => a | None => nattr_empty end in
  mk_graph (dict_set n (nattr_update old attr) (_node g)) (_succ g).

(** [G._adj[u]], empty for a missing node. *)
Definition adj (g : DiGraph) (u : string) : dict edata :=
  match dict_get u (_succ g) with Some nb => nb | None => [] end.

(** [G.add_edge(u, v, **attr)]: the attributes given update the dictionary
    of the edge from [u] to [v] when there is one. *)
Definition add_edge (u v : string) (attr : edata) (g : DiGraph) : DiGraph :=
  let g := ensure_node u g in
  let g := ensure_node v g in
  let datadict :=
    match dict_get v (adj g u) with Some d => d | None => edata_empty end in
  let datadict := edata_update datadict attr in
  mk_graph (_node g) (dict_set u (dict_set v datadict (adj g u)) (_succ g)).

(** [G.has_edge(u, v)] *)
Definition has_edge (g : DiGraph) (u v : string) : bool := dict_mem v (adj g u).

(** [G[u][v]] *)
Definition get_edge (g : DiGraph) (u v : string) : option edata :=
  dict_get v (adj g u).

(** [G.edges(data=True)] *)
Definition edges (g : DiGraph) : list (string * string * edata) :=
  flat_map (fun un => map (fun vd => (fst un, fst vd, snd vd)) (snd un)) (_succ g).

Definition successors (g : DiGraph) (u : string) : list string := keys (adj g u).

Definition mem (x : string) (l : list string) : bool :=
  existsb (String.eqb x) l.

(** Nodes reached from [l] by at most [n] edges. *)
Fixpoint reach (g : DiGraph) (n : nat) (l : list string) : list string :=
  match n with
  | O => l
  | S n' => reach g n' (l ++ flat_map (successors g) l)
  end.

(** [nx.has_path(G, source, target)]: the shortest-path search raises
    [NodeNotFound] when the source or the target is not a node, and the
    result says whether it found a path.  A shortest path has fewer edges
    than the graph has nodes. *)
Definition has_path (g : DiGraph) (source target : string) : result bool :=
  if negb (has_node g source && has_node g target)
  then Raise (NodeNotFound source target)
  else Ok (mem target (reach g (List.length (_succ g)) [source])).

(** Depth-first enumeration behind [all_simple_paths]: [visited] is the
    current path, ending in [u]; at most [k] more edges may be taken.  A
    successor already on the path is passed over, the target is yielded
    and not searched through. *)
Fixpoint simple_paths_from (g : DiGraph) (target : string) (k : nat)
    (visited : list string) (u : string) : list (list string) :=
  match k with
  | O => []
  | S k' =>
      flat_map (fun v =>
        if mem v visited then []
        else if String.eqb v target then [visited ++ [v]]
        else simple_paths_from g target k' (visited ++ [v]) v)
      (successors g u)
  end.

(** [nx.all_simple_paths(G, source, target, cutoff)] for [source] and
    [target] nodes of [G], which is the case wherever the extractor calls
    it (it has called [has_path] on them before).  The paths come in
    depth-first order; a path is the list of its nodes.  When source and
    target are the same node, current releases of the library yield the
    one-node path and nothing else. *)
Definition all_simple_paths (g : DiGraph) (source target : string)
    (cutoff : nat) : list (list string) :=
  if String.eqb source target then [[source]]
  else simple_paths_from g target cutoff [source] source.

End Nx.

(** ** The extractor: [MediaOwnershipExtractor] *)

Module Extractor.
Import Py Nx Normalizer.

(** Built-in functions of the language that the extractor applies to
    extracted text: [str.lower] and the conversion of a float by [str]. *)
Class Builtins : Type := {
  str_lower : string -> string;
  float_repr : float -> string }.

(** [str(n)] inside an f-string. *)
Definition number_str `{Builtins} (n : number) : string :=
  match n with
  | PInt0 => "0"
  | PFloat f => float_repr f
  end.

(** An entry of [self.owners] or [self.entities]. *)
Record info : Type := mk_info {
  i_id : string;
  i_name : string;
  i_type : string;
  i_description : option string;
  i_image_url : string;
  i_media_type : option string }.

Record relationship : Type := mk_rel {
  source_id : string;
  target_id : string;
  r_type : rel_type;
  percentage : number;
  description : string }.

Record extractor : Type := mk_ext {
  owners : dict info;
  entities : dict info;
  relationships : list relationship;
  graph : DiGraph }.

(** [__init__] *)
Definition init : extractor := mk_ext [] [] [] empty_graph.

Definition set_owner (k : string) (v : info) (st : extractor) : extractor :=
  mk_ext (dict_set k v (owners st)) (entities st) (relationships st) (graph st).

Definition set_entity (k : string) (v : info) (st : extractor) : extractor :=
  mk_ext (owners st) (dict_set k v (entities st)) (relationships st) (graph st).

(** [self.relationships.append(relationship)] *)
Definition append_relationship (r : relationship) (st : extractor) : extractor :=
  mk_ext (owners st) (entities st) (relationships st ++ [r]) (graph st).

Definition on_graph (f : DiGraph -> DiGraph) (st : extractor) : extractor :=
  mk_ext (owners st) (entities st) (relationships st) (f (graph st)).

(** *** What the HTML glue hands over

    The extraction of fields from a page is outside the model: a page is
    given as the fields and the sequences of blocks that the processing
    functions are called on. *)

Record company_div : Type := mk_company {
  c_link : bool;                 (* the block has an [a] element *)
  c_name : option string;        (* stripped text of [strong.hl4] *)
  c_percentage : number;         (* parsed percentage, [0] by default *)
  c_image : string }.

Record outlet_div : Type := mk_outlet {
  o_link : bool;
  o_name : option string;
  o_mediatype : option string;   (* stripped text of [div.mediatype] *)
  o_percentage : number;
  o_image : string }.

(** Name and description that [process_family_member] splits its text into. *)
Record family_text : Type := mk_family {
  f_name : string;
  f_description : string }.

Record page : Type := mk_page {
  p_owner_name : string;
  p_owner_description : string;
  p_owner_image : string;
  p_companies : list company_div;
  p_outlets : list outlet_div;
  p_family : list family_text }.

(** [len(s)]: the number of code points of UTF-8 text. *)
Definition py_len (s : string) : nat :=
  List.length
    (filter (fun c => negb (N.leb 128 (N_of_ascii c) && N.ltb (N_of_ascii c) 192))
       (list_ascii_of_string s)).

(** [term in s] *)
Fixpoint contains (term s : string) : bool :=
  if String.prefix term s then true
  else match s with
       | EmptyString => false
       | String _ s' => contains term s'
       end.

Definition any_in (terms : list string) (s : string) : bool :=
  existsb (fun term => contains term s) terms.

Section WithBuiltins.
Context `{Builtins}.

(** [process_media_company(self, company_div, owner_id)] *)
Definition process_media_company (div : company_div) (owner_id : string)
    (st : extractor) : extractor :=
  if negb (c_link div) then st
  else
    let company_name :=
      match c_name div with Some n => n | None => "Unknown Company" end in
    let company_id := sanitize_id company_name in
    let ownership_percentage := c_percentage div in
    let image_url := c_image div in
    let st := set_entity company_id
                (mk_info company_id company_name "company" None image_url None) st in
    let st := on_graph
                (add_node company_id
                   (mk_nattr (Some company_name) (Some "company") None
                      (Some image_url) None)) st in
    let relationship :=
      mk_rel owner_id company_id owns ownership_percentage
        ("Owns " ++ number_str ownership_percentage ++ "% of " ++ company_name) in
    let st := append_relationship relationship st in
    on_graph
      (add_edge owner_id company_id
         (mk_edata (Some owns) (Some ownership_percentage)
            (Some (description relationship)))) st.

(** [process_media_outlet(self, outlet_div, owner_id)] *)
Definition process_media_outlet (div : outlet_div) (owner_id : string)
    (st : extractor) : extractor :=
  if negb (o_link div) then st
  else
    let outlet_name :=
      match o_name div with Some n => n | None => "Unknown Outlet" end in
    let outlet_id := sanitize_id outlet_name in
    let outlet_type :=
      match o_mediatype div with Some t => t | None => "unknown" end in
    let ownership_percentage := o_percentage div in
    let image_url := o_image div in
    let st := set_entity outlet_id
                (mk_info outlet_id outlet_name "media_outlet" None image_url
                   (Some (str_lower outlet_type))) st in
    let st := on_graph
                (add_node outlet_id
                   (mk_nattr (Some outlet_name) (Some "media_outlet") None
                      (Some image_url) (Some (str_lower outlet_type)))) st in
    let relationship :=
      mk_rel owner_id outlet_id owns ownership_percentage
        ("Owns " ++ number_str ownership_percentage ++ "% of " ++ outlet_name) in
    let st := append_relationship relationship st in
    on_graph
      (add_edge owner_id outlet_id
         (mk_edata (Some owns) (Some ownership_percentage)
            (Some (description relationship)))) st.

(** The relationship type read off the description text. *)
Definition relationship_type_of (description : string) : rel_type :=
  let d := str_lower description in
  if any_in ["wife"; "husband"; "spouse"] d then spouse
  else if any_in ["son"; "daughter"; "child"] d then child
  else if any_in ["brother"; "sister"; "sibling"] d then sibling
  else if any_in ["father"; "mother"; "parent"] d then parent
  else family_relation.

(** [process_family_member(self, text, owner_id, owner_name)], from the
    point where the text has been split. *)
Definition process_family_member (text : family_text) (owner_id : string)
    (st : extractor) : extractor :=
  let family_member_name := f_name text in
  let description := f_description text in
  if (String.eqb family_member_name "" || Nat.ltb (py_len family_member_name) 3)%bool
  then st
  else
    let family_member_id := sanitize_id family_member_name in
    if String.eqb family_member_id owner_id then st
    else
      let relationship_type := relationship_type_of description in
      let st :=
        if (negb (dict_mem family_member_id (owners st))
            && negb (dict_mem family_member_id (entities st)))%bool
        then
          let st := set_owner family_member_id
                      (mk_info family_member_id family_member_name "owner"
                         (Some description) "" None) st in
          on_graph
            (add_node family_member_id
               (mk_nattr (Some family_member_name) (Some "owner")
                  (Some description) (Some "") None)) st
        else st in
      let relationship :=
        mk_rel owner_id family_member_id relationship_type PInt0 description in
      let st := append_relationship relationship st in
      on_graph
        (add_edge owner_id family_member_id
           (mk_edata (Some relationship_type) None (Some description))) st.

(** [process_html_file(self, html_content, filename)] *)
Definition process_html_file (pg : page) (st : extractor) : extractor :=
  let owner_name := p_owner_name pg in
  let owner_id := sanitize_id owner_name in
  let owner_description := p_owner_description pg in
  let owner_image := p_owner_image pg in
  let st := set_owner owner_id
              (mk_info owner_id owner_name "owner" (Some owner_description)
                 owner_image None) st in
  let st := on_graph
              (add_node owner_id
                 (mk_nattr (Some owner_name) (Some "owner")
                    (Some owner_description) (Some owner_image) None)) st in
  let st := fold_left (fun st div => process_media_company div owner_id st)
              (p_companies pg) st in
  let st := fold_left (fun st div => process_media_outlet div owner_id st)
              (p_outlets pg) st in
  fold_left (fun st text => process_family_member text owner_id st)
    (p_family pg) st.

End WithBuiltins.

(** *** Code that can raise, run on the mutable extractor

    A computation returns a value or raises, and in both cases leaves the
    extractor as it has mutated it so far. *)

Definition M (A : Type) : Type := extractor -> result A * extractor.

Definition ret {A : Type} (a : A) : M A := fun st => (Ok a, st).

Definition bind {A B : Type} (m : M A) (k : A -> M B) : M B :=
  fun st =>
    match m st with
    | (Ok a, st') => k a st'
    | (Raise e, st') => (Raise e, st')
    end.

Definition lift {A : Type} (r : result A) : M A := fun st => (r, st).

Definition gets {A : Type} (f : extractor -> A) : M A := fun st => (Ok (f st), st).

Definition modify (f : extractor -> extractor) : M unit := fun st => (Ok tt, f st).

Notation "x <- m ;; k" := (bind m (fun x => k))
  (at level 61, m at next level, right associativity).
Notation "m ;;; k" := (bind m (fun _ => k))
  (at level 61, right associativity).

(** A [for] loop whose body can raise. *)
Fixpoint for_each {X : Type} (l : list X) (body : X -> M unit) : M unit :=
  match l with
  | [] => ret tt
  | x :: r => body x ;;; for_each r body
  end.

(** *** [calculate_indirect_ownership] *)

Definition is_owns (d : edata) : bool :=
  match e_type d with Some owns => true | _ => false end.

(** [[(u, v, d) for u, v, d in self.graph.edges(data=True)
      if d.get('type') == 'owns']] *)
Definition ownership_edges (g : DiGraph) : list (string * string * edata) :=
  filter (fun uvd => is_owns (snd uvd)) (edges g).

(** The copy of the graph with only ownership edges, each carrying
    [percentage=d.get('percentage', 0)]. *)
Definition ownership_graph_of (g : DiGraph) : DiGraph :=
  fold_left
    (fun og uvd =>
       let '(u, v, d) := uvd in
       add_edge u v
         (mk_edata None
            (Some (match e_percentage d with Some p => p | None => PInt0 end))
            None) og)
    (ownership_edges g) empty_graph.

(** [ownership_graph[u][v]['percentage']] *)
Definition edge_percentage (og : DiGraph) (u v : string) : result number :=
  match dict_get u (_succ og) with
  | None => Raise (KeyError u)
  | Some nb =>
      match dict_get v nb with
      | None => Raise (KeyError v)
      | Some d =>
          match e_percentage d with
          | None => Raise (KeyError "percentage")
          | Some p => Ok p
          end
      end
  end.

(** The inner loop over the edges of one path, from the running value
    [path_percentage]. *)
Fixpoint path_percentage_from (og : DiGraph) (path_percentage : float)
    (path : list string) : result float :=
  match path with
  | u :: (v :: _) as rest =>
      match edge_percentage og u v with
      | Ok p =>
          path_percentage_from og
            (path_percentage * (to_float p / 100.0))%float rest
      | Raise e => Raise e
      end
  | _ => Ok path_percentage
  end.

Definition path_percentage (og : DiGraph) (path : list string) : result float :=
  path_percentage_from og 100.0%float path.

(** The loop over the paths, from the running total.  The total starts as
    the integer [0], which the first addition converts to [0.0]. *)
Fixpoint sum_paths (og : DiGraph) (indirect_percentage : float)
    (paths : list (list string)) : result float :=
  match paths with
  | [] => Ok indirect_percentage
  | path :: rest =>
      match path_percentage og path with
      | Ok p => sum_paths og (indirect_percentage + p)%float rest
      | Raise e => Raise e
      end
  end.

Definition indirect_description (indirect_percentage : float)
    (entity_name : string) : string :=
  "Indirectly owns " ++ format_2f indirect_percentage ++ "% of " ++ entity_name.

(** [self.entities[entity_id]] *)
Definition entity_lookup (entity_id : string) : M info :=
  fun st =>
    match dict_get entity_id (entities st) with
    | Some i => (Ok i, st)
    | None => (Raise (KeyError entity_id), st)
    end.

(** The body of the two nested loops, for one pair. *)
Definition process_pair (og : DiGraph) (owner_id entity_id : string) : M unit :=
  if has_edge og owner_id entity_id then ret tt
  else
    b <- lift (has_path og owner_id entity_id) ;;
    if negb b then ret tt
    else
      indirect_percentage <-
        lift (sum_paths og 0%float (all_simple_paths og owner_id entity_id 3)) ;;
      if (1.0 <? indirect_percentage)%float then
        entity <- entity_lookup entity_id ;;
        let entity_name := i_name entity in
        modify (on_graph
                  (add_edge owner_id entity_id
                     (mk_edata (Some indirect_owns)
                        (Some (PFloat indirect_percentage))
                        (Some (indirect_description indirect_percentage entity_name))))) ;;;
        modify (append_relationship
                  (mk_rel owner_id entity_id indirect_owns
                     (PFloat indirect_percentage)
                     (indirect_description indirect_percentage entity_name)))
      else ret tt.

Definition indirect_pass (og : DiGraph) (owner_ids entity_ids : list string) : M unit :=
  for_each owner_ids (fun owner_id =>
    for_each entity_ids (fun entity_id =>
      process_pair og owner_id entity_id)).

(** [calculate_indirect_ownership(self)]: the new extractor and the
    exception that the [except] clause has logged, if any. *)
Definition calculate_indirect_ownership (st : extractor) : extractor * option exn :=
  let ownership_graph := ownership_graph_of (graph st) in
  match indirect_pass ownership_graph (keys (owners st)) (keys (entities st)) st with
  | (Ok _, st') => (st', None)
  | (Raise e, st') => (st', Some e)
  end.

(** *** [build_network] and [extract_all_data] *)

(** The result of [build_network]; the adjacency matrix, a view of
    [net_graph], is left out. *)
Record network : Type := mk_network {
  net_graph : DiGraph;
  net_relationships : list relationship;   (* rows of the relationship table *)
  net_owners : list info;
  net_entities : list info }.

Definition build_network (st : extractor) : network :=
  mk_network (graph st) (relationships st) (values (owners st)) (values (entities st)).

(** [extract_all_data(self)] on the pages of the directory, in listing order. *)
Definition direct_phase `{Builtins} (pages : list page) : extractor :=
  fold_left (fun st pg => process_html_file pg st) pages init.

Definition extract_all_data `{Builtins} (pages : list page) : network :=
  build_network (fst (calculate_indirect_ownership (direct_phase pages))).

End Extractor.


(** ** Notions used to state the properties *)

Module Props.
Import Py Nx Extractor.

(** Consecutive nodes of [p] are joined by edges of [g]. *)
Fixpoint is_chain (g : DiGraph) (p : list string) : Prop :=
  match p with
  | u :: (v :: _) as r => has_edge g u v = true /\ is_chain g r
  | _ => True
  end.

(** A simple directed path of [g] from [s] to [t], as the list of its
    nodes: no node is repeated. *)
Definition simple_path (g : DiGraph) (s t : string) (p : list string) : Prop :=
  (exists m, p = s :: m) /\ (exists m, p = m ++ [t]) /\ NoDup p /\ is_chain g p.

(** Number of edges of a path. *)
Definition hops (p : list string) : nat := List.length p - 1.

(** Percentage carried by the edge from [u] to [v]. *)
Definition edge_pct (g : DiGraph) (u v : string) : float :=
  match get_edge g u v with
  | Some d => match e_percentage d with Some n => to_float n | None => 0%float end
  | None => 0%float
  end.

(** The edges of a path, in order. *)
Definition path_edges (p : list string) : list (string * string) :=
  combine p (tl p).

(** Path ownership percentage in the words of the specification: the
    product over the consecutive edges of the edge percentage over 100,
    starting from 100. *)
Definition path_product (g : DiGraph) (p : list string) : float :=
  fold_left (fun acc uv => (acc * (edge_pct g (fst uv) (snd uv) / 100.0))%float)
    (path_edges p) 100.0%float.

(** Sum of the path percentages over the enumerated paths of a pair. *)
Definition total_indirect (g : DiGraph) (s t : string) : float :=
  fold_left (fun acc p => (acc + path_product g p)%float)
    (all_simple_paths g s t 3) 0%float.

(** What the ownership-only graph satisfies by construction: successors
    are listed once, end points of edges are nodes, every edge carries a
    percentage. *)
Definition og_wf (g : DiGraph) : Prop :=
  (forall u, NoDup (successors g u)) /\
  (forall u v, has_edge g u v = true ->
     has_node g u = true /\ has_node g v = true /\
     exists d p, get_edge g u v = Some d /\ e_percentage d = Some p).

(** The relationships that [calculate_indirect_ownership] adds. *)
Definition emitted (st : extractor) : list relationship :=
  skipn (List.length (relationships st))
    (relationships (fst (calculate_indirect_ownership st))).

Definition between (a c : string) (r : relationship) : bool :=
  (String.eqb (source_id r) a && String.eqb (target_id r) c)%bool.

(** [k] is a key of the registry. *)
Definition registered (st : extractor) (k : string) : Prop :=
  In k (keys (owners st)) \/ In k (keys (entities st)).

Definition rel_ok (st : extractor) (r : relationship) : Prop :=
  registered st (source_id r) /\ registered st (target_id r) /\
  has_node (graph st) (source_id r) = true /\
  has_node (graph st) (target_id r) = true.

Definition registry_in_graph (st : extractor) : Prop :=
  forall k, registered st k -> has_node (graph st) k = true.

(** Every stored relationship refers to registered identifiers that are
    nodes of the graph. *)
Definition references_ok (st : extractor) : Prop :=
  registry_in_graph st /\ Forall (rel_ok st) (relationships st).

(** Nothing is removed from the registry or from the nodes of the graph. *)
Definition grows (st st' : extractor) : Prop :=
  (forall k, registered st k -> registered st' k) /\
  (forall k, has_node (graph st) k = true -> has_node (graph st') k = true).

(** [st'] comes from [st] by appending [r] in a state [st_at], reached
    without touching the list, in which the references of [r] are valid,
    and then adding the edge of [r] to the graph. *)
Definition appends_at (st st' : extractor) (r : relationship) : Prop :=
  exists st_at attr,
    relationships st_at = relationships st /\ grows st st_at /\ rel_ok st_at r /\
    st' = on_graph (add_edge (source_id r) (target_id r) attr)
            (append_relationship r st_at).

(** The list of [st'] is the list of [st] followed by relationships that
    satisfy [P]. *)
Definition appends_only (P : relationship -> Prop) (st st' : extractor) : Prop :=
  exists news, relationships st' = relationships st ++ news /\ Forall P news.

Definition is_direct (r : relationship) : Prop := r_type r <> indirect_owns.

(** What an operation that may append one relationship guarantees. *)
Definition step_ok (st st' : extractor) : Prop :=
  references_ok st' /\ grows st st' /\
  (st' = st \/
   exists r, appends_at st st' r /\ is_direct r /\
             relationships st' = relationships st ++ [r]).

(** The edge from [u] to [v] can be queried under the type [t]. *)
Definition has_typed_edge (g : DiGraph) (u v : string) (t : rel_type) : bool :=
  match get_edge g u v with
  | Some d => match e_type d with Some t' => rel_type_eqb t t' | None => false end
  | None => false
  end.

(** *** The pass over the pairs, seen from outside *)

Definition indirect_relationship (o e : string) (pct : float) (name : string)
  : relationship :=
  mk_rel o e indirect_owns (PFloat pct) (indirect_description pct name).

(** The two mutations made for a pair with a material indirect stake. *)
Definition emit (o e : string) (pct : float) (name : string) (st : extractor)
  : extractor :=
  append_relationship (indirect_relationship o e pct name)
    (on_graph
       (add_edge o e
          (mk_edata (Some indirect_owns) (Some (PFloat pct))
             (Some (indirect_description pct name)))) st).

Inductive pair_outcome : Type :=
| Skip
| Emit (pct : float) (name : string)
| Fail (e : exn).

(** What happens for the pair of [o] and [e]. *)
Definition pair_outcome_of (og : DiGraph) (ents : dict info) (o e : string)
  : pair_outcome :=
  if has_edge og o e then Skip
  else
    match has_path og o e with
    | Raise x => Fail x
    | Ok false => Skip
    | Ok true =>
        let pct := total_indirect og o e in
        if (1.0 <? pct)%float then
          match dict_get e ents with
          | Some i => Emit pct (i_name i)
          | None => Fail (KeyError e)
          end
        else Skip
    end.

(** Relationships added over a sequence of pairs, up to the first pair
    that raises, and the exception raised. *)
Fixpoint pass_outcome (og : DiGraph) (ents : dict info)
    (pairs : list (string * string)) : list relationship * option exn :=
  match pairs with
  | [] => ([], None)
  | (o, e) :: rest =>
      match pair_outcome_of og ents o e with
      | Skip => pass_outcome og ents rest
      | Emit pct name =>
          (indirect_relationship o e pct name :: fst (pass_outcome og ents rest),
           snd (pass_outcome og ents rest))
      | Fail x => ([], Some x)
      end
  end.

(** The pairs in the order of the two nested loops. *)
Definition pairs_of (st : extractor) : list (string * string) :=
  list_prod (keys (owners st)) (keys (entities st)).

(** The loop body on a pair given as one value. *)
Definition pair_body (og : DiGraph) (oe : string * string) : M unit :=
  process_pair og (fst oe) (snd oe).

(** The relationship added for a pair, if any. *)
Definition pair_emits (og : DiGraph) (ents : dict info) (oe : string * string)
  : list relationship :=
  match pair_outcome_of og ents (fst oe) (snd oe) with
  | Emit pct name => [indirect_relationship (fst oe) (snd oe) pct name]
  | _ => []
  end.

Definition pair_eqb (x y : string * string) : bool :=
  (String.eqb (fst y) (fst x) && String.eqb (snd y) (snd x))%bool.

End Props.

(** ** Example inputs *)

Module Examples.
Import Py Nx Extractor Props Normalizer.

(** [str.lower] on ASCII text. *)
Definition ascii_lower (s : string) : string :=
  string_of_list_ascii (lower (list_ascii_of_string s)).

(** [str] of a float whose value is an integer below [10^16]; other
    values, which the examples do not use, are written with two places. *)
Definition integral_repr (f : float) : string :=
  match Prim2SF f with
  | S754_zero s => if s then "-0.0" else "0.0"
  | S754_finite s m e =>
      let whole (n : N) : string :=
        ((if s then "-" else "") ++ digits n ++ ".0")%string in
      match e with
      | Z0 => whole (Npos m)
      | Zpos p => whole (Npos m * 2 ^ Npos p)%N
      | Zneg p =>
          if N.eqb (Npos m mod 2 ^ Npos p) 0 then whole (Npos m / 2 ^ Npos p)%N
          else format_2f f
      end
  | _ => format_2f f
  end.

#[export] Instance ascii_builtins : Builtins :=
  {| str_lower := ascii_lower; float_repr := integral_repr |}.

Definition company (name : string) (pct : float) : company_div :=
  mk_company true (Some name) (PFloat pct) "".

Definition owner_page (name : string) (cs : list company_div) : page :=
  mk_page name "" "" cs [] [].

(** A owns 60% of B, B owns 50% of C. *)
Definition st_chain : extractor :=
  direct_phase [owner_page "A" [company "B" 60]; owner_page "B" [company "C" 50]].

(** As [st_chain], and A owns 40% of D, D owns 50% of C. *)
Definition st_two_paths : extractor :=
  direct_phase [owner_page "A" [company "B" 60; company "D" 40];
                owner_page "B" [company "C" 50];
                owner_page "D" [company "C" 50]].

(** As [st_chain], after the page of an owner Z with no holdings. *)
Definition st_idle_owner : extractor :=
  direct_phase [owner_page "Z" [];
                owner_page "A" [company "B" 60];
                owner_page "B" [company "C" 50]].

(** The page of A lists the company Bee (60%) and, among family and
    friends, a person of the same name. *)
Definition st_homonym : extractor :=
  direct_phase [mk_page "A" "" "" [company "Bee" 60] [] [mk_family "Bee" "his wife"]].

(** A chain of four full holdings from A to E. *)
Definition st_long : extractor :=
  direct_phase [owner_page "A" [company "B" 100]; owner_page "B" [company "C" 100];
                owner_page "C" [company "D" 100]; owner_page "D" [company "E" 100]].

(** A holds 60% of B and also, over a longer chain, 1% of 50% of B. *)
Definition st_direct_and_indirect : extractor :=
  direct_phase [owner_page "A" [company "B" 60; company "D" 100];
                owner_page "D" [company "B" 50]].

End Examples.

(** ** Further notions: shape of identifiers *)

Module IdShape.
Import Normalizer.

Definition is_sep (c : ascii) : bool := Ascii.eqb c underscore.

(** The characters of a string that are not separators. *)
Definition non_separators (l : list ascii) : list ascii :=
  filter (fun c => negb (is_sep c)) l.

(** A well-formed identifier: characters from [a-z0-9_], no two
    separators in a row, none at either end. *)
Definition well_formed_id (s : string) : Prop :=
  let l := list_ascii_of_string s in
  Forall (fun c => id_char c = true) l /\ no_adj l /\
  (forall r, l <> underscore :: r) /\ (forall r, l <> r ++ [underscore]).

(** The ASCII letters and digits of a name, lower-cased, in order. *)
Definition alnum_skeleton (s : string) : list ascii :=
  map lower_char (filter is_alnum (list_ascii_of_string s)).

End IdShape.

(** ** Further notions: the pass and the graph *)

Module PassProps.
Import Py Nx Extractor Props.

(** Source and target of a relationship. *)
Definition ends (r : relationship) : string * string := (source_id r, target_id r).

(** The attributes that the edge of a relationship is given. *)
Definition edge_attr (r : relationship) : edata :=
  mk_edata (Some (r_type r)) (Some (percentage r)) (Some (description r)).

(** Adding the edges of a list of relationships, in order. *)
Definition add_edges (rs : list relationship) (g : DiGraph) : DiGraph :=
  fold_left (fun g r => add_edge (source_id r) (target_id r) (edge_attr r) g) rs g.

(** The dictionaries of the graph have distinct keys. *)
Definition graph_wf (g : DiGraph) : Prop :=
  NoDup (keys (_succ g)) /\
  forall u nb, In (u, nb) (_succ g) -> NoDup (keys nb).

(** [d.get('percentage', 0)] *)
Definition percentage_or_0 (d : edata) : number :=
  match e_percentage d with Some p => p | None => PInt0 end.

(** The attributes given to an edge of the ownership-only graph. *)
Definition pct_attr (d : edata) : edata :=
  mk_edata None (Some (percentage_or_0 d)) None.

(** The insertion of one ownership edge into the ownership-only graph. *)
Definition ins (og : DiGraph) (uvd : string * string * edata) : DiGraph :=
  add_edge (fst (fst uvd)) (snd (fst uvd)) (pct_attr (snd uvd)) og.

(** A registry holds each entry once, under the identifier stored in the
    entry, which is the identifier of the entry's name. *)
Definition registry_wf (d : dict info) : Prop :=
  NoDup (keys d) /\
  forall k i, In (k, i) d -> i_id i = k /\ k = Normalizer.sanitize_id (i_name i).

Definition registries_wf (st : extractor) : Prop :=
  registry_wf (owners st) /\ registry_wf (entities st).

(** The page lists at least one company or outlet block with a link. *)
Definition page_has_holding (pg : page) : bool :=
  (existsb c_link (p_companies pg) || existsb o_link (p_outlets pg))%bool.

(** Every edge has type [owns], every entity is held by some node, and
    every owner other than [oid] holds some node. *)
Definition holdings_only (oid : option string) (st : extractor) : Prop :=
  (forall u v d, get_edge (graph st) u v = Some d -> e_type d = Some owns) /\
  (forall k, In k (keys (entities st)) -> exists u, has_edge (graph st) u k = true) /\
  (forall k, In k (keys (owners st)) -> Some k <> oid ->
     exists v, has_edge (graph st) k v = true).

Definition holds_something (o : string) (st : extractor) : Prop :=
  exists v, has_edge (graph st) o v = true.

(** The graph mirrors the stored data: its nodes are registered
    identifiers and every stored relationship has an edge between its
    end points. *)
Definition mirrored (st : extractor) : Prop :=
  (forall k, has_node (graph st) k = true -> registered st k) /\
  Forall (fun r => has_edge (graph st) (source_id r) (target_id r) = true)
    (relationships st).

End PassProps.

(** ** Further notions: the rows of the relationship table *)

Module RowProps.
Import Py Nx Extractor Props PassProps.


(** The relationships of the pass, computed from the state before it:
    for each owner key and each entity key in turn, up to the first pair
    that raises, the relationship of the pair if it has a material
    indirect stake and no direct edge. *)
Definition indirect_relationships (st : extractor) : list relationship :=
  fst (pass_outcome (ownership_graph_of (graph st)) (entities st) (pairs_of st)).

Section WithBuiltins.
Context `{Builtins}.

(** The direct relationship that a company block stands for. *)
Definition company_relationship (o : string) (div : company_div)
  : list relationship :=
  if c_link div then
    let name := match c_name div with Some n => n | None => "Unknown Company" end in
    [mk_rel o (Normalizer.sanitize_id name) owns (c_percentage div)
       ("Owns " ++ number_str (c_percentage div) ++ "% of " ++ name)]
  else [].

(** The direct relationship that an outlet block stands for. *)
Definition outlet_relationship (o : string) (div : outlet_div)
  : list relationship :=
  if o_link div then
    let name := match o_name div with Some n => n | None => "Unknown Outlet" end in
    [mk_rel o (Normalizer.sanitize_id name) owns (o_percentage div)
       ("Owns " ++ number_str (o_percentage div) ++ "% of " ++ name)]
  else [].

(** The direct relationship that a family text stands for: none for a
    name of fewer than three characters or with the owner's identifier. *)
Definition family_relationship (o : string) (text : family_text)
  : list relationship :=
  if (String.eqb (f_name text) "" || Nat.ltb (py_len (f_name text)) 3)%bool then []
  else if String.eqb (Normalizer.sanitize_id (f_name text)) o then []
  else [mk_rel o (Normalizer.sanitize_id (f_name text))
          (relationship_type_of (f_description text)) PInt0 (f_description text)].

(** The direct relationships of a page, in the order of its blocks:
    companies, outlets, family. *)
Definition page_relationships (pg : page) : list relationship :=
  let o := Normalizer.sanitize_id (p_owner_name pg) in
  flat_map (company_relationship o) (p_companies pg) ++
  flat_map (outlet_relationship o) (p_outlets pg) ++
  flat_map (family_relationship o) (p_family pg).

(** The direct relationships of a run, page after page. *)
Definition direct_relationships (pages : list page) : list relationship :=
  flat_map page_relationships pages.

End WithBuiltins.

End RowProps.
(** * Properties *)

(** ** The normaliser *)

Module NormalizerFacts.
Import Normalizer.

Lemma collapse_underscores (n : nat) :
  collapse (repeat underscore (S n)) = [underscore].
Proof.
  induction n as [|n IH]; [reflexivity|].
  change (repeat underscore (S (S n)))
    with (underscore :: underscore :: repeat underscore n).
  cbn [collapse]. rewrite Ascii.eqb_refl. exact IH.
Qed.

Lemma sub_special_no_alnum (l : list ascii) :
  Forall (fun c => is_alnum c = false) l ->
  sub_special l = repeat underscore (List.length l).
Proof.
  induction 1 as [|c l Hc _ IH]; [reflexivity|].
  cbn [sub_special map List.length repeat]. rewrite Hc. f_equal. exact IH.
Qed.

Lemma lower_underscores (n : nat) :
  lower (repeat underscore n) = repeat underscore n.
Proof. induction n as [|n IH]; [reflexivity|]. cbn. f_equal. exact IH. Qed.

Lemma sanitize_no_alnum (c : ascii) (s : string) :
  no_alnum (String c s) -> sanitize_id (String c s) = "".
Proof.
  intros H. unfold sanitize_id.
  rewrite (sub_special_no_alnum _ H), lower_underscores.
  cbn [list_ascii_of_string List.length]. rewrite collapse_underscores.
  reflexivity.
Qed.


Lemma id_char_after_lower (c : ascii) :
  id_char (lower_char (if is_alnum c then c else underscore)) = true.
Proof. destruct c as [[] [] [] [] [] [] [] []]; reflexivity. Qed.

Lemma id_char_fixed (c : ascii) :
  id_char c = true ->
  lower_char c = c /\ (if is_alnum c then c else underscore) = c.
Proof.
  destruct c as [[] [] [] [] [] [] [] []]; cbv; intros E;
    first [discriminate E | split; reflexivity].
Qed.

Lemma id_chars_lower_sub (l : list ascii) :
  Forall (fun c => id_char c = true) (lower (sub_special l)).
Proof.
  induction l as [|c l IH]; constructor; [apply id_char_after_lower | exact IH].
Qed.

Lemma id_chars_fixed (l : list ascii) :
  Forall (fun c => id_char c = true) l -> lower (sub_special l) = l.
Proof.
  induction 1 as [|c l Hc _ IH]; [reflexivity|].
  cbn [sub_special lower map]. destruct (id_char_fixed c Hc) as [H1 H2].
  rewrite H2, H1. f_equal. exact IH.
Qed.


Lemma collapse_sub (P : ascii -> Prop) (l : list ascii) :
  Forall P l -> Forall P (collapse l).
Proof.
  induction 1 as [|c l Hc Hl IH]; [constructor|].
  cbn [collapse]. destruct (Ascii.eqb c underscore); [|constructor; assumption].
  destruct l as [|d l]; [constructor; assumption|].
  destruct (Ascii.eqb d underscore); [exact IH | constructor; assumption].
Qed.

Lemma collapse_head (c : ascii) (l : list ascii) :
  exists r, collapse (c :: l) = c :: r \/
            (c = underscore /\ exists l', collapse (c :: l) = underscore :: l').
Proof.
  revert c. induction l as [|d l IH]; intros c.
  - exists []. left. cbn. destruct (Ascii.eqb c underscore); reflexivity.
  - cbn [collapse]. destruct (Ascii.eqb_spec c underscore) as [->|Hc].
    + destruct (Ascii.eqb_spec d underscore) as [->|Hd].
      * destruct (IH underscore) as [r [H|[_ [l' H]]]];
          exists r; right; split; trivial; eexists; exact H.
      * eexists. left. reflexivity.
    + eexists. left. reflexivity.
Qed.

Lemma collapse_no_adj (l : list ascii) : no_adj (collapse l).
Proof.
  induction l as [|c l IH]; [exact I|].
  cbn [collapse]. destruct (Ascii.eqb_spec c underscore) as [->|Hc].
  - destruct l as [|d l]; [cbn; auto|].
    destruct (Ascii.eqb_spec d underscore) as [->|Hd]; [exact IH|].
    cbn [no_adj]. split; [|exact IH].
    destruct (collapse_head d l) as [r [H|[-> _]]]; [|congruence].
    rewrite H. intros [_ E]. congruence.
  - cbn [no_adj]. split; [|exact IH].
    destruct (collapse l); [exact I|]. intros [E _]. congruence.
Qed.

Lemma no_adj_fixed (l : list ascii) : no_adj l -> collapse l = l.
Proof.
  induction l as [|c l IH]; [reflexivity|].
  intros [H1 H2]. cbn [collapse]. rewrite (IH H2).
  destruct (Ascii.eqb_spec c underscore) as [->|Hc]; [|reflexivity].
  destruct l as [|d l]; [reflexivity|].
  destruct (Ascii.eqb_spec d underscore) as [->|Hd]; [|reflexivity].
  exfalso. apply H1. split; reflexivity.
Qed.

Lemma no_adj_app (p q : list ascii) : no_adj (p ++ q) -> no_adj p /\ no_adj q.
Proof.
  induction p as [|c p IH]; [cbn; auto|].
  cbn [app no_adj]. intros [H1 H2]. destruct (IH H2) as [Hp Hq].
  repeat split; trivial. destruct p as [|d p]; [exact I|exact H1].
Qed.

Lemma lstrip_suffix (l : list ascii) : exists p, l = p ++ lstrip l.
Proof.
  induction l as [|c l [p Hp]]; [exists []; reflexivity|].
  cbn [lstrip]. destruct (Ascii.eqb c underscore).
  - exists (c :: p). cbn. f_equal. exact Hp.
  - exists []. reflexivity.
Qed.

Lemma rstrip_prefix (l : list ascii) : exists q, l = rstrip l ++ q.
Proof.
  destruct (lstrip_suffix (rev l)) as [p Hp]. exists (rev p). unfold rstrip.
  rewrite <- rev_app_distr, <- Hp, rev_involutive. reflexivity.
Qed.

Lemma lstrip_idem (l : list ascii) : lstrip (lstrip l) = lstrip l.
Proof.
  induction l as [|c l IH]; [reflexivity|].
  cbn [lstrip]. destruct (Ascii.eqb c underscore) eqn:E; [exact IH|].
  cbn [lstrip]. rewrite E. reflexivity.
Qed.

Lemma rstrip_keeps_lstripped (l : list ascii) :
  lstrip l = l -> lstrip (rstrip l) = rstrip l.
Proof.
  intros H. destruct (rstrip_prefix l) as [q Hq].
  destruct (rstrip l) as [|c r] eqn:E; [reflexivity|].
  rewrite Hq in H. cbn [app lstrip] in H. cbn [lstrip].
  destruct (Ascii.eqb c underscore) in H |- *; [|reflexivity].
  exfalso. destruct (lstrip_suffix (r ++ q)) as [p Hp].
  apply (f_equal (@List.length ascii)) in H, Hp.
  cbn [List.length] in H. rewrite (length_app p) in Hp. lia.
Qed.

Lemma strip_idem (l : list ascii) : strip (strip l) = strip l.
Proof.
  unfold strip. rewrite (rstrip_keeps_lstripped _ (lstrip_idem l)).
  unfold rstrip. rewrite rev_involutive, lstrip_idem. reflexivity.
Qed.

Lemma strip_segment (l : list ascii) : exists p q, l = p ++ strip l ++ q.
Proof.
  destruct (lstrip_suffix l) as [p Hp]. destruct (rstrip_prefix (lstrip l)) as [q Hq].
  exists p, q. unfold strip. rewrite <- Hq. exact Hp.
Qed.

Lemma Forall_segment (P : ascii -> Prop) (l p m q : list ascii) :
  l = p ++ m ++ q -> Forall P l -> Forall P m.
Proof.
  intros -> H. apply Forall_app in H. destruct H as [_ H].
  apply Forall_app in H. tauto.
Qed.


Lemma normal_form_idem (l : list ascii) :
  normal_form (normal_form l) = normal_form l.
Proof.
  unfold normal_form at 1.
  destruct (strip_segment (collapse (lower (sub_special l)))) as (p & q & E).
  fold (normal_form l) in E.
  assert (Hc : Forall (fun c => id_char c = true) (normal_form l)).
  { eapply Forall_segment; [exact E|]. apply collapse_sub, id_chars_lower_sub. }
  assert (Ha : no_adj (normal_form l)).
  { pose proof (collapse_no_adj (lower (sub_special l))) as H. rewrite E in H.
    apply no_adj_app in H. destruct H as [_ H]. apply no_adj_app in H. tauto. }
  rewrite (id_chars_fixed _ Hc), (no_adj_fixed _ Ha).
  apply strip_idem.
Qed.

(** Where the identifier is not empty, normalising it again changes
    nothing. *)
Lemma sanitize_id_idem_nonempty (x : string) :
  sanitize_id x <> "" -> sanitize_id (sanitize_id x) = sanitize_id x.
Proof.
  destruct x as [|c x]; [reflexivity|].
  unfold sanitize_id at 1 3. fold (normal_form (list_ascii_of_string (String c x))).
  set (l := normal_form (list_ascii_of_string (String c x))).
  intros H. destruct (string_of_list_ascii l) as [|d y] eqn:E; [congruence|].
  unfold sanitize_id. rewrite <- E, list_ascii_of_string_of_list_ascii.
  fold (normal_form l). unfold l. rewrite normal_form_idem. reflexivity.
Qed.

End NormalizerFacts.

(** ** Dictionaries *)

Module DictFacts.
Import Py.

Section Dict.
Context {V : Type}.
Implicit Types (d : dict V) (k : string) (v : V).

Lemma dict_get_set k k' v d :
    dict_get k (dict_set k' v d) = if String.eqb k k' then Some v else dict_get k d.
  Proof.
    induction d as [|[k0 v0] d IH]; cbn [dict_set dict_get].
    - reflexivity.
    - destruct (String.eqb_spec k' k0) as [->|Hne]; cbn [dict_get].
      + destruct (String.eqb k k0); reflexivity.
      + rewrite IH. destruct (String.eqb_spec k k0) as [->|]; [|reflexivity].
        destruct (String.eqb_spec k0 k'); [congruence|reflexivity].
  Qed.

Lemma dict_mem_In k d : dict_mem k d = true <-> In k (keys d).
  Proof.
    unfold dict_mem. induction d as [|[k0 v0] d IH]; cbn [dict_get keys map fst In].
    - split; [discriminate|tauto].
    - destruct (String.eqb_spec k k0) as [->|Hne]; [tauto|].
      rewrite IH. unfold keys. split; [tauto|]. intros [E|E]; [congruence|exact E].
  Qed.

Lemma dict_mem_set k k' v d :
    dict_mem k (dict_set k' v d) = (String.eqb k k' || dict_mem k d)%bool.
  Proof.
    unfold dict_mem. rewrite dict_get_set. destruct (String.eqb k k'); reflexivity.
  Qed.

Lemma keys_set k v d :
    keys (dict_set k v d) = if dict_mem k d then keys d else keys d ++ [k].
  Proof.
    unfold dict_mem.
    induction d as [|[k0 v0] d IH]; cbn [dict_set dict_get keys map fst app].
    - reflexivity.
    - destruct (String.eqb_spec k k0) as [->|Hne]; [reflexivity|].
      cbn [keys map fst]. fold (keys (dict_set k v d)). rewrite IH.
      destruct (dict_get k d); reflexivity.
  Qed.

Lemma keys_set_NoDup k v d : NoDup (keys d) -> NoDup (keys (dict_set k v d)).
  Proof.
    intros H. rewrite keys_set. destruct (dict_mem k d) eqn:E; [exact H|].
    apply NoDup_app; [exact H | repeat constructor; intros [] | ].
    intros x Hx [<-|[]]. apply dict_mem_In in Hx. congruence.
  Qed.

Lemma keys_set_In k k' v d : In k (keys (dict_set k' v d)) <-> k = k' \/ In k (keys d).
  Proof.
    rewrite <- !dict_mem_In, dict_mem_set, orb_true_iff.
    destruct (String.eqb_spec k k'); intuition congruence.
  Qed.

Lemma dict_get_In k v d : dict_get k d = Some v -> In (k, v) d.
  Proof.
    induction d as [|[k0 v0] d IH]; cbn [dict_get]; [discriminate|].
    destruct (String.eqb_spec k k0) as [->|]; intros E.
    - left. congruence.
    - right. auto.
  Qed.

Lemma In_dict_get k v d : NoDup (keys d) -> In (k, v) d -> dict_get k d = Some v.
  Proof.
    induction d as [|[k0 v0] d IH]; cbn [dict_get keys map fst]; [intros _ []|].
    intros Hnd [E|Hin].
    - injection E as -> ->. rewrite String.eqb_refl. reflexivity.
    - inversion Hnd as [|? ? Hnot Hnd']; subst.
      destruct (String.eqb_spec k k0) as [->|]; [|auto].
      exfalso. apply Hnot. apply (in_map fst) in Hin. exact Hin.
  Qed.
End Dict.

End DictFacts.

(** ** The directed graph *)

Module NxFacts.
Import Py Nx DictFacts.

Lemma has_node_ensure n g m :
  has_node (ensure_node n g) m = (String.eqb m n || has_node g m)%bool.
Proof.
  unfold ensure_node. destruct (has_node g n) eqn:E.
  - destruct (String.eqb_spec m n) as [->|]; [rewrite E|]; reflexivity.
  - unfold has_node. cbn [_succ]. apply dict_mem_set.
Qed.

Lemma adj_ensure n g u : adj (ensure_node n g) u = adj g u.
Proof.
  unfold ensure_node. destruct (has_node g n) eqn:E; [reflexivity|].
  unfold adj. cbn [_succ]. rewrite dict_get_set.
  destruct (String.eqb_spec u n) as [->|]; [|reflexivity].
  unfold has_node, dict_mem in E. destruct (dict_get n (_succ g)); [discriminate|reflexivity].
Qed.

Lemma adj_add_edge u v a g u' :
  adj (add_edge u v a g) u' =
  if String.eqb u' u
  then dict_set v (edata_update
                     (match get_edge g u v with Some d => d | None => edata_empty end) a)
         (adj g u)
  else adj g u'.
Proof.
  unfold add_edge, get_edge. unfold adj at 1. cbn [_succ]. rewrite dict_get_set.
  destruct (String.eqb u' u).
  - rewrite !adj_ensure. reflexivity.
  - change (adj (ensure_node v (ensure_node u g)) u' = adj g u').
    rewrite !adj_ensure. reflexivity.
Qed.

Lemma get_edge_add_edge u v a g u' v' :
  get_edge (add_edge u v a g) u' v' =
  if (String.eqb u' u && String.eqb v' v)%bool
  then Some (edata_update
               (match get_edge g u v with Some d => d | None => edata_empty end) a)
  else get_edge g u' v'.
Proof.
  unfold get_edge at 1. rewrite adj_add_edge.
  destruct (String.eqb_spec u' u) as [->|]; [|reflexivity].
  rewrite dict_get_set. destruct (String.eqb v' v); reflexivity.
Qed.

Lemma has_edge_get_edge g u v :
  has_edge g u v = match get_edge g u v with Some _ => true | None => false end.
Proof. reflexivity. Qed.

Lemma has_edge_add_edge u v a g u' v' :
  has_edge (add_edge u v a g) u' v' =
  ((String.eqb u' u && String.eqb v' v) || has_edge g u' v')%bool.
Proof.
  rewrite !has_edge_get_edge, get_edge_add_edge.
  destruct (String.eqb u' u && String.eqb v' v)%bool; reflexivity.
Qed.

Lemma has_node_add_edge u v a g m :
  has_node (add_edge u v a g) m =
  (String.eqb m u || String.eqb m v || has_node g m)%bool.
Proof.
  unfold add_edge. unfold has_node at 1. cbn [_succ]. rewrite dict_mem_set.
  fold (has_node (ensure_node v (ensure_node u g)) m).
  rewrite !has_node_ensure.
  destruct (String.eqb m u), (String.eqb m v), (has_node g m); reflexivity.
Qed.

Lemma has_node_add_node n a g m :
  has_node (add_node n a g) m = (String.eqb m n || has_node g m)%bool.
Proof. unfold add_node. unfold has_node at 1. cbn [_succ]. apply has_node_ensure. Qed.

Lemma adj_add_node n a g u : adj (add_node n a g) u = adj g u.
Proof. unfold add_node. unfold adj at 1. cbn [_succ]. apply adj_ensure. Qed.

Lemma successors_add_edge_NoDup u v a g u' :
  NoDup (successors g u') -> NoDup (successors g u) ->
  NoDup (successors (add_edge u v a g) u').
Proof.
  intros H1 H2. unfold successors. rewrite adj_add_edge.
  destruct (String.eqb u' u); [apply keys_set_NoDup; exact H2 | exact H1].
Qed.

Lemma has_edge_successors g u v : has_edge g u v = true <-> In v (successors g u).
Proof. apply dict_mem_In. Qed.

Lemma mem_In x l : mem x l = true <-> In x l.
Proof.
  unfold mem. rewrite existsb_exists. split.
  - intros (y & Hy & E). apply String.eqb_eq in E. congruence.
  - intros H. exists x. split; [exact H | apply String.eqb_refl].
Qed.

Lemma mem_false x l : mem x l = false <-> ~ In x l.
Proof. rewrite <- mem_In. destruct (mem x l); split; congruence. Qed.

End NxFacts.

(** ** Enumeration of simple paths *)

Module PathFacts.
Import Py Nx Extractor Props DictFacts NxFacts.

Lemma NoDup_flat_map {A B : Type} (f : A -> list B) (l : list A) :
  NoDup l ->
  (forall x, In x l -> NoDup (f x)) ->
  (forall x y b, In x l -> In y l -> In b (f x) -> In b (f y) -> x = y) ->
  NoDup (flat_map f l).
Proof.
  induction 1 as [|a l Ha Hl IH]; intros Hf Hd; cbn [flat_map]; [constructor|].
  apply NoDup_app.
  - apply Hf. left. reflexivity.
  - apply IH.
    + intros x Hx. apply Hf. right. exact Hx.
    + intros x y b Hx Hy. apply Hd; right; assumption.
  - intros b Hb Hb'. apply in_flat_map in Hb'. destruct Hb' as (y & Hy & Hby).
    apply Ha. rewrite (Hd a y b); auto; [left; reflexivity | right; exact Hy].
Qed.

Section Enumeration.
Variables (g : DiGraph) (t : string).

  (** The paths found from [u] are the current path extended along edges
      by at most [k] new nodes, ending in the target. *)
Lemma simple_paths_from_spec k : forall visited u p,
    In p (simple_paths_from g t k visited u) <->
    exists ext pre,
      p = visited ++ ext /\ ext = pre ++ [t] /\ List.length ext <= k /\
      is_chain g (u :: ext) /\ NoDup ext /\ (forall x, In x ext -> ~ In x visited).
  Proof.
    induction k as [|k IH]; intros visited u p; cbn [simple_paths_from].
    - split; [intros []|]. intros (ext & pre & _ & -> & Hlen & _).
      rewrite length_app in Hlen. cbn in Hlen. lia.
    - rewrite in_flat_map. split.
      + intros (v & Hv & Hp). apply has_edge_successors in Hv.
        destruct (mem v visited) eqn:Hvis; [destruct Hp|]. apply mem_false in Hvis.
        destruct (String.eqb_spec v t) as [->|Hvt].
        * destruct Hp as [<-|[]]. exists [t], []. cbn.
          repeat split; trivial; try lia.
          -- repeat constructor. intros [].
          -- intros x [<-|[]]. exact Hvis.
        * apply IH in Hp. destruct Hp as (ext & pre & -> & -> & Hlen & Hch & Hnd & Hdis).
          exists (v :: pre ++ [t]), (v :: pre). rewrite <- app_assoc. cbn [app].
          repeat split; trivial.
          -- cbn [List.length]. lia.
          -- constructor; [|exact Hnd]. intros Hin. apply (Hdis v Hin).
             apply in_or_app. right. left. reflexivity.
          -- intros x [<-|Hx]; [exact Hvis|]. intros Hx'. apply (Hdis x Hx).
             apply in_or_app. left. exact Hx'.
      + intros (ext & pre & -> & Hext & Hlen & Hch & Hnd & Hdis).
        destruct ext as [|v ext]; [destruct pre; discriminate|].
        destruct Hch as [Huv Hch]. exists v. split; [apply has_edge_successors; exact Huv|].
        assert (Hvis : mem v visited = false).
        { apply mem_false. apply Hdis. left. reflexivity. }
        rewrite Hvis. inversion Hnd as [|? ? Hv Hnd']; subst.
        destruct pre as [|v' pre]; cbn [app] in Hext; injection Hext as Hv' Hext.
        * subst. rewrite String.eqb_refl. left. reflexivity.
        * subst v' ext. destruct (String.eqb_spec v t) as [->|Hvt].
          { exfalso. apply Hv. apply in_or_app. right. left. reflexivity. }
          apply IH. exists (pre ++ [t]), pre. rewrite <- app_assoc. cbn [app].
          repeat split; trivial.
          -- cbn [List.length] in Hlen. lia.
          -- intros x Hx Hx'. apply in_app_or in Hx'. destruct Hx' as [Hx'|[<-|[]]].
             ++ apply (Hdis x); [right; exact Hx | exact Hx'].
             ++ exact (Hv Hx).
  Qed.

Lemma simple_paths_from_NoDup k : forall visited u,
    (forall w, NoDup (successors g w)) ->
    NoDup (simple_paths_from g t k visited u).
  Proof.
    induction k as [|k IH]; intros visited u Hs; cbn [simple_paths_from]; [constructor|].
    apply NoDup_flat_map; [apply Hs | |].
    - intros v _. destruct (mem v visited); [constructor|].
      destruct (String.eqb v t); [repeat constructor; intros [] | apply IH; exact Hs].
    - assert (Hhead : forall v p,
        In p (if mem v visited then []
              else if String.eqb v t then [visited ++ [v]]
              else simple_paths_from g t k (visited ++ [v]) v) ->
        exists r, p = visited ++ v :: r).
      { intros v p Hp. destruct (mem v visited); [destruct Hp|].
        destruct (String.eqb v t).
        - destruct Hp as [<-|[]]. exists []. reflexivity.
        - apply simple_paths_from_spec in Hp. destruct Hp as (ext & _ & -> & _).
          exists ext. rewrite <- app_assoc. reflexivity. }
      intros x y p _ _ Hx Hy. apply Hhead in Hx, Hy.
      destruct Hx as [r1 ->], Hy as [r2 E]. apply app_inv_head in E. congruence.
  Qed.
End Enumeration.

(** The enumeration yields exactly the simple paths with at most [cutoff]
    edges. *)
Lemma all_simple_paths_spec g s t cutoff p :
  1 <= cutoff ->
  In p (all_simple_paths g s t cutoff) <->
  simple_path g s t p /\ hops p <= cutoff.
Proof.
  intros Hc. unfold all_simple_paths, simple_path, hops.
  destruct (String.eqb_spec s t) as [->|Hst].
  - split.
    + intros [<-|[]]. cbn. repeat split; try lia.
      * exists []. reflexivity.
      * exists []. reflexivity.
      * repeat constructor. intros [].
    + intros (([m ->] & [pre E] & Hnd & _) & _). left.
      destruct m as [|x m]; [reflexivity|]. exfalso.
      inversion Hnd as [|? ? Hnot _]; subst. apply Hnot.
      destruct pre as [|y pre]; [discriminate|]. injection E as _ E. rewrite E.
      apply in_or_app. right. left. reflexivity.
  - rewrite simple_paths_from_spec. split.
    + intros (ext & pre & -> & -> & Hlen & Hch & Hnd & Hdis). cbn [app].
      repeat split.
      * eexists. reflexivity.
      * exists (s :: pre). reflexivity.
      * constructor; [|exact Hnd]. intros Hin. apply (Hdis s Hin). left. reflexivity.
      * exact Hch.
      * cbn [List.length]. lia.
    + intros (([m ->] & [pre E] & Hnd & Hch) & Hlen).
      inversion Hnd as [|? ? Hnot Hnd']; subst.
      destruct pre as [|y pre]; cbn [app] in E; injection E as E1 E2; [congruence|].
      subst y m. exists (pre ++ [t]), pre. cbn [app List.length] in *.
      repeat split; trivial; [lia|]. intros x Hx [<-|[]]. exact (Hnot Hx).
Qed.

Lemma all_simple_paths_NoDup g s t cutoff :
  (forall w, NoDup (successors g w)) -> NoDup (all_simple_paths g s t cutoff).
Proof.
  intros H. unfold all_simple_paths. destruct (String.eqb s t).
  - repeat constructor. intros [].
  - apply simple_paths_from_NoDup. exact H.
Qed.

End PathFacts.

(** ** Percentages along paths and the ownership-only graph *)

Module PercentFacts.
Import Py Nx Extractor Props DictFacts NxFacts PathFacts.

Lemma edge_percentage_ok g u v d n :
  get_edge g u v = Some d -> e_percentage d = Some n ->
  edge_percentage g u v = Ok n /\ edge_pct g u v = to_float n.
Proof.
  intros Hd Hn. unfold edge_pct, edge_percentage. rewrite Hd, Hn.
  unfold get_edge, adj in Hd. destruct (dict_get u (_succ g)); [|discriminate].
  rewrite Hd, Hn. split; reflexivity.
Qed.

Lemma edge_percentage_pct g u v n :
  edge_percentage g u v = Ok n -> edge_pct g u v = to_float n.
Proof.
  unfold edge_percentage, edge_pct, get_edge, adj.
  destruct (dict_get u (_succ g)) as [nb|]; [|discriminate].
  destruct (dict_get v nb) as [d|]; [|discriminate].
  destruct (e_percentage d); [|discriminate]. congruence.
Qed.

Lemma path_percentage_from_cons g acc u v p :
  path_percentage_from g acc (u :: v :: p) =
  match edge_percentage g u v with
  | Ok n => path_percentage_from g (acc * (to_float n / 100.0))%float (v :: p)
  | Raise e => Raise e
  end.
Proof. reflexivity. Qed.

Section Wf.
Variable g : DiGraph.
Hypothesis Hwf : og_wf g.

  (** Along a path of the graph no lookup fails, and the loop computes the
      product of the specification. *)
Lemma path_percentage_from_ok p : forall acc,
    is_chain g p ->
    path_percentage_from g acc p =
    Ok (fold_left (fun a uv => (a * (edge_pct g (fst uv) (snd uv) / 100.0))%float)
          (path_edges p) acc).
  Proof.
    induction p as [|u p IH]; intros acc Hch; [reflexivity|].
    destruct p as [|v p]; [reflexivity|].
    destruct Hch as [Huv Hch].
    destruct Hwf as [_ Hedges]. destruct (Hedges u v Huv) as (_ & _ & d & n & Hd & Hn).
    destruct (edge_percentage_ok g u v d n Hd Hn) as [E1 E2].
    rewrite path_percentage_from_cons, E1, (IH _ Hch).
    unfold path_edges. cbn [tl combine fold_left fst snd]. rewrite E2. reflexivity.
  Qed.

Lemma sum_paths_ok paths : forall acc,
    (forall p, In p paths -> is_chain g p) ->
    sum_paths g acc paths =
    Ok (fold_left (fun a p => (a + path_product g p)%float) paths acc).
  Proof.
    induction paths as [|p paths IH]; intros acc H; [reflexivity|].
    cbn [sum_paths fold_left]. unfold path_percentage.
    rewrite path_percentage_from_ok by (apply H; left; reflexivity).
    fold (path_product g p). apply IH. intros q Hq. apply H. right. exact Hq.
  Qed.

  (** The running total of a pair is the sum over its simple paths. *)
Lemma sum_all_simple_paths s t :
    sum_paths g 0%float (all_simple_paths g s t 3) = Ok (total_indirect g s t).
  Proof.
    apply sum_paths_ok. intros p Hp.
    apply all_simple_paths_spec in Hp; [|lia]. apply Hp.
  Qed.
End Wf.

Lemma og_wf_empty : og_wf empty_graph.
Proof.
  split; [intros u; constructor|]. intros u v H. discriminate H.
Qed.

Lemma og_wf_add_edge u v n g :
  og_wf g -> og_wf (add_edge u v (mk_edata None (Some n) None) g).
Proof.
  intros [Hnd Hedges]. split.
  - intros w. apply successors_add_edge_NoDup; apply Hnd.
  - intros a b. rewrite has_edge_add_edge, !has_node_add_edge, get_edge_add_edge.
    destruct (String.eqb_spec a u) as [->|Ha]; cbn [andb orb].
    + destruct (String.eqb_spec b v) as [->|Hb]; cbn [orb].
      * intros _. rewrite !orb_true_r. repeat split; trivial.
        do 2 eexists. split; reflexivity.
      * intros H. destruct (Hedges _ _ H) as (H1 & H2 & H3).
        rewrite H2, !orb_true_r. auto.
    + intros H. destruct (Hedges _ _ H) as (H1 & H2 & H3).
      rewrite H1, H2, !orb_true_r. auto.
Qed.

Lemma og_wf_ownership_graph g : og_wf (ownership_graph_of g).
Proof.
  unfold ownership_graph_of. generalize (ownership_edges g) as l.
  assert (H : og_wf empty_graph) by apply og_wf_empty. revert H.
  generalize empty_graph as og. intros og H l. revert og H.
  induction l as [|[[u v] d] l IH]; intros og H; [exact H|].
  cbn [fold_left]. apply IH. apply og_wf_add_edge. exact H.
Qed.

End PercentFacts.

(** ** The pass over the pairs *)

Module PassFacts.
Import Py Nx Extractor Props DictFacts NxFacts PathFacts PercentFacts.

Lemma bind_ext {A B : Type} (m m' : M A) (k k' : A -> M B) :
  (forall st, m st = m' st) -> (forall a st, k a st = k' a st) ->
  forall st, bind m k st = bind m' k' st.
Proof.
  intros Hm Hk st. unfold bind. rewrite Hm.
  destruct (m' st) as [[a|e] st']; [apply Hk | reflexivity].
Qed.

Lemma for_each_ext {X : Type} (l : list X) (f f' : X -> M unit) :
  (forall x st, f x st = f' x st) -> forall st, for_each l f st = for_each l f' st.
Proof.
  intros H. induction l as [|x l IH]; intros st; [reflexivity|].
  cbn [for_each]. apply bind_ext; [apply H | intros _; exact IH].
Qed.

Lemma for_each_app {X : Type} (l1 l2 : list X) (f : X -> M unit) st :
  for_each (l1 ++ l2) f st = (for_each l1 f ;;; for_each l2 f) st.
Proof.
  revert st. induction l1 as [|x l1 IH]; intros st; [reflexivity|].
  cbn [app for_each]. unfold bind in *.
  destruct (f x st) as [[[]|e] st1]; [|reflexivity].
  apply IH.
Qed.

Lemma for_each_map {X Y : Type} (h : X -> Y) (l : list X) (f : Y -> M unit) st :
  for_each (map h l) f st = for_each l (fun x => f (h x)) st.
Proof.
  revert st. induction l as [|x l IH]; intros st; [reflexivity|].
  cbn [map for_each]. apply bind_ext; [reflexivity | intros _; exact IH].
Qed.

(** The nested loops visit the pairs of [list_prod] in order. *)
Lemma indirect_pass_pairs og l1 l2 st :
  indirect_pass og l1 l2 st = for_each (list_prod l1 l2) (pair_body og) st.
Proof.
  unfold indirect_pass. revert st. induction l1 as [|o l1 IH]; intros st; [reflexivity|].
  cbn [for_each list_prod]. rewrite for_each_app.
  apply bind_ext; [|intros _; exact IH].
  intros st1. rewrite for_each_map. reflexivity.
Qed.

Section Pass.
Variable og : DiGraph.
Hypothesis Hwf : og_wf og.

Lemma process_pair_outcome o e st :
    process_pair og o e st =
    match pair_outcome_of og (entities st) o e with
    | Skip => (Ok tt, st)
    | Emit pct name => (Ok tt, emit o e pct name st)
    | Fail x => (Raise x, st)
    end.
  Proof.
    unfold process_pair, pair_outcome_of.
    destruct (has_edge og o e); [reflexivity|].
    destruct (has_path og o e) as [[|]|x]; try reflexivity.
    unfold bind, lift. cbn [negb]. rewrite (sum_all_simple_paths og Hwf).
    destruct (1.0 <? total_indirect og o e)%float; [|reflexivity].
    unfold entity_lookup. destruct (dict_get e (entities st)); reflexivity.
  Qed.

Lemma for_each_pair_cons o e pairs st :
    for_each ((o, e) :: pairs) (pair_body og) st =
    match pair_outcome_of og (entities st) o e with
    | Skip => for_each pairs (pair_body og) st
    | Emit pct name => for_each pairs (pair_body og) (emit o e pct name st)
    | Fail x => (Raise x, st)
    end.
  Proof.
    cbn [for_each]. unfold bind. unfold pair_body at 1. cbn [fst snd].
    rewrite process_pair_outcome.
    destruct (pair_outcome_of og (entities st) o e); reflexivity.
  Qed.

Lemma for_each_pairs pairs : forall st,
    let r := for_each pairs (pair_body og) st in
    relationships (snd r) =
      relationships st ++ fst (pass_outcome og (entities st) pairs) /\
    owners (snd r) = owners st /\ entities (snd r) = entities st /\
    fst r = match snd (pass_outcome og (entities st) pairs) with
            | None => Ok tt
            | Some x => Raise x
            end /\
    (forall k, has_node (graph st) k = true -> has_node (graph (snd r)) k = true).
  Proof.
    induction pairs as [|[o e] pairs IH]; intros st; cbn zeta.
    - cbn. rewrite app_nil_r. auto.
    - rewrite for_each_pair_cons. cbn [pass_outcome].
      destruct (pair_outcome_of og (entities st) o e) as [|pct name|x].
      + apply IH.
      + specialize (IH (emit o e pct name st)). cbn zeta in IH.
        destruct IH as (H1 & H2 & H3 & H4 & H5). cbn [fst snd].
        change (entities (emit o e pct name st)) with (entities st) in *.
        rewrite H1, H2, H3, H4. cbn [emit append_relationship relationships owners].
        rewrite <- app_assoc. repeat split; trivial.
        intros k Hk. apply H5. cbn [emit append_relationship on_graph graph].
        rewrite has_node_add_edge, Hk, !orb_true_r. reflexivity.
      + cbn. rewrite app_nil_r. auto.
  Qed.
End Pass.

(** What [calculate_indirect_ownership] does to the stored data. *)
Lemma calculate_outcome st :
  let og := ownership_graph_of (graph st) in
  let r := calculate_indirect_ownership st in
  relationships (fst r) =
    relationships st ++ fst (pass_outcome og (entities st) (pairs_of st)) /\
  owners (fst r) = owners st /\ entities (fst r) = entities st /\
  snd r = snd (pass_outcome og (entities st) (pairs_of st)) /\
  (forall k, has_node (graph st) k = true -> has_node (graph (fst r)) k = true).
Proof.
  cbn zeta. unfold calculate_indirect_ownership.
  pose proof (for_each_pairs _ (og_wf_ownership_graph (graph st)) (pairs_of st) st) as H.
  cbn zeta in H. rewrite indirect_pass_pairs. fold (pairs_of st).
  destruct (for_each (pairs_of st) (pair_body (ownership_graph_of (graph st))) st)
    as [[[]|x] st'] eqn:E; cbn [fst snd] in *;
    destruct H as (H1 & H2 & H3 & H4 & H5);
    destruct (snd (pass_outcome (ownership_graph_of (graph st)) (entities st) (pairs_of st)));
    try discriminate; repeat split; trivial; congruence.
Qed.

Lemma emitted_outcome st :
  emitted st =
  fst (pass_outcome (ownership_graph_of (graph st)) (entities st) (pairs_of st)).
Proof.
  unfold emitted. destruct (calculate_outcome st) as (H & _). cbn zeta in H.
  rewrite H, skipn_app, skipn_all, Nat.sub_diag. reflexivity.
Qed.

Lemma pass_outcome_In og ents pairs r :
  In r (fst (pass_outcome og ents pairs)) ->
  exists o e pct name,
    In (o, e) pairs /\ pair_outcome_of og ents o e = Emit pct name /\
    r = indirect_relationship o e pct name.
Proof.
  induction pairs as [|[o e] pairs IH]; cbn [pass_outcome]; [intros []|].
  destruct (pair_outcome_of og ents o e) as [|pct name|x] eqn:E; cbn [fst].
  - intros H. destruct (IH H) as (o' & e' & p & n & Hin & Ho & Hr).
    exists o', e', p, n. split; [right|]; auto.
  - intros [<-|H].
    + exists o, e, pct, name. split; [left|]; auto.
    + destruct (IH H) as (o' & e' & p & n & Hin & Ho & Hr).
      exists o', e', p, n. split; [right|]; auto.
  - intros [].
Qed.

Lemma pair_outcome_emit og ents o e pct name :
  pair_outcome_of og ents o e = Emit pct name ->
  has_edge og o e = false /\ has_path og o e = Ok true /\
  pct = total_indirect og o e /\ (1.0 <? pct)%float = true /\
  exists i, dict_get e ents = Some i /\ name = i_name i.
Proof.
  unfold pair_outcome_of. destruct (has_edge og o e); [discriminate|].
  destruct (has_path og o e) as [[|]|x]; try discriminate.
  destruct (1.0 <? total_indirect og o e)%float eqn:E; [|discriminate].
  destruct (dict_get e ents) as [i|]; [|discriminate].
  intros H. injection H as <- <-. repeat split; trivial. exists i. auto.
Qed.

(** A pass that raises nothing adds what each pair emits, in order. *)
Lemma pass_outcome_complete og ents pairs :
  snd (pass_outcome og ents pairs) = None ->
  fst (pass_outcome og ents pairs) = flat_map (pair_emits og ents) pairs.
Proof.
  induction pairs as [|[o e] pairs IH]; cbn [pass_outcome flat_map]; [reflexivity|].
  unfold pair_emits at 1. cbn [fst snd].
  destruct (pair_outcome_of og ents o e) as [|pct name|x]; cbn [fst snd app].
  - exact IH.
  - intros H. rewrite (IH H). reflexivity.
  - discriminate.
Qed.

End PassFacts.

(** ** Indirect ownership: the claims about emitted relationships *)

Import Py Nx Extractor Props Examples.
Import DictFacts NxFacts PathFacts PercentFacts PassFacts.

Lemma emitted_In (st : extractor) (r : relationship) :
  In r (emitted st) ->
  let og := ownership_graph_of (graph st) in
  exists o e i,
    In (o, e) (pairs_of st) /\ dict_get e (entities st) = Some i /\
    has_edge og o e = false /\ has_path og o e = Ok true /\
    (1.0 <? total_indirect og o e)%float = true /\
    r = indirect_relationship o e (total_indirect og o e) (i_name i).
Proof.
  rewrite emitted_outcome. intros H. cbn zeta.
  apply pass_outcome_In in H. destruct H as (o & e & pct & name & Hin & Ho & ->).
  apply pair_outcome_emit in Ho. destruct Ho as (H1 & H2 & -> & H4 & i & H5 & ->).
  exists o, e, i. auto 10.
Qed.

(** C3.  An [indirect_owns] relationship is added for a pair only when the
    ownership-only graph has no edge from the owner to the entity and the
    summed percentage of the pair is greater than 1.0: every relationship
    that the pass adds has type [indirect_owns], joins an owner to an
    entity without a direct edge, and carries the pair's sum, which
    exceeds 1.0. *)
Theorem indirect_only_without_direct_and_material (st : extractor) (r : relationship) :
  In r (emitted st) ->
  let og := ownership_graph_of (graph st) in
  r_type r = indirect_owns /\
  In (source_id r) (keys (owners st)) /\
  In (target_id r) (keys (entities st)) /\
  has_edge og (source_id r) (target_id r) = false /\
  percentage r = PFloat (total_indirect og (source_id r) (target_id r)) /\
  (1.0 <? total_indirect og (source_id r) (target_id r))%float = true.
Proof.
  intros H. destruct (emitted_In st r H) as (o & e & i & Hin & _ & H1 & _ & H2 & ->).
  apply in_prod_iff in Hin. unfold indirect_relationship.
  cbn [r_type source_id target_id percentage]. tauto.
Qed.

Lemma indirect_only_witness :
  In (indirect_relationship "a" "c" 30 "C") (emitted st_chain) /\
  has_edge (ownership_graph_of (graph st_chain)) "a" "c" = false /\
  (1.0 <? total_indirect (ownership_graph_of (graph st_chain)) "a" "c")%float = true.
Proof.
  assert (H : In (indirect_relationship "a" "c" 30 "C") (emitted st_chain))
    by (vm_compute; left; reflexivity).
  split; [exact H|].
  pose proof (indirect_only_without_direct_and_material st_chain _ H) as T.
  cbn zeta in T. split; apply T.
Defined.

(** C6.  Only simple directed paths with at most three edges contribute to
    the sum of a pair: every enumerated path is a simple path from the
    owner to the entity with at most three edges; and when every simple
    path from [a] to [e] in the ownership-only graph has four or more
    edges, the pass adds no relationship from [a] to [e]. *)
Theorem paths_beyond_three_hops_ignored (st : extractor) (a e : string) :
  let og := ownership_graph_of (graph st) in
  (forall p, In p (all_simple_paths og a e 3) -> simple_path og a e p /\ hops p <= 3) /\
  ((forall p, simple_path og a e p -> 4 <= hops p) ->
   forall r, In r (emitted st) -> between a e r = false).
Proof.
  cbn zeta. split.
  - intros p Hp. apply all_simple_paths_spec in Hp; [exact Hp | lia].
  - intros Hlong r Hr. destruct (between a e r) eqn:Hb; [exfalso | reflexivity].
    destruct (emitted_In st r Hr) as (o & e' & i & _ & _ & _ & _ & Hgt & ->).
    unfold between, indirect_relationship in Hb. cbn [source_id target_id] in Hb.
    apply andb_true_iff in Hb.
    destruct Hb as [Ho He]. apply String.eqb_eq in Ho, He. subst o e'.
    assert (Hnil : all_simple_paths (ownership_graph_of (graph st)) a e 3 = []).
    { destruct (all_simple_paths (ownership_graph_of (graph st)) a e 3) as [|p l] eqn:E;
        [reflexivity|]. exfalso.
      assert (Hp : In p (all_simple_paths (ownership_graph_of (graph st)) a e 3))
        by (rewrite E; left; reflexivity).
      apply all_simple_paths_spec in Hp; [|lia]. destruct Hp as [Hs Hh].
      specialize (Hlong p Hs). lia. }
    unfold total_indirect in Hgt. rewrite Hnil in Hgt. cbn [fold_left] in Hgt.
    discriminate Hgt.
Qed.

Lemma long_chain_only (p : list string) :
  simple_path (ownership_graph_of (graph st_long)) "a" "e" p -> 4 <= hops p.
Proof.
  intros Hp. destruct (le_lt_dec 4 (hops p)) as [H|H]; [exact H | exfalso].
  assert (Hin : In p (all_simple_paths (ownership_graph_of (graph st_long)) "a" "e" 3)).
  { refine (proj2 (all_simple_paths_spec _ _ _ 3 p _) (conj Hp _)); lia. }
  vm_compute in Hin. exact Hin.
Qed.

Lemma paths_beyond_three_hops_witness :
  (forall p, simple_path (ownership_graph_of (graph st_long)) "a" "e" p -> 4 <= hops p) /\
  (forall r, In r (emitted st_long) -> between "a" "e" r = false).
Proof.
  split; [exact long_chain_only|].
  exact (proj2 (paths_beyond_three_hops_ignored st_long "a" "e") long_chain_only).
Defined.

(** C7.  The indirect percentage of a pair is the sum of the path
    percentages over all simple directed paths with at most three edges
    from the owner to the entity: the loop's running total is that sum,
    the enumeration lists each such path once and nothing else, so that
    paths sharing edges all contribute in full, and a relationship added
    for the pair carries the sum.  With the two paths A, B, C (30%) and
    A, D, C (20%) the one relationship from A to C has 50%. *)
Theorem indirect_percentage_sums_all_paths :
  (forall (st : extractor) (o e : string),
     let og := ownership_graph_of (graph st) in
     sum_paths og 0%float (all_simple_paths og o e 3) = Ok (total_indirect og o e) /\
     NoDup (all_simple_paths og o e 3) /\
     (forall p, In p (all_simple_paths og o e 3) <-> simple_path og o e p /\ hops p <= 3) /\
     (forall r, In r (emitted st) -> between o e r = true ->
        percentage r = PFloat (total_indirect og o e))) /\
  filter (between "a" "c") (emitted st_two_paths) =
    [mk_rel "a" "c" indirect_owns (PFloat 50) "Indirectly owns 50.00% of C"] /\
  all_simple_paths (ownership_graph_of (graph st_two_paths)) "a" "c" 3 =
    [["a"; "b"; "c"]; ["a"; "d"; "c"]] /\
  map (path_product (ownership_graph_of (graph st_two_paths)))
    [["a"; "b"; "c"]; ["a"; "d"; "c"]] = [30%float; 20%float].
Proof.
  split; [|split; [|split]; vm_compute; reflexivity].
  intros st o e og. pose proof (og_wf_ownership_graph (graph st)) as Hwf.
  fold og in Hwf. split; [|split; [|split]].
  - apply sum_all_simple_paths. exact Hwf.
  - apply all_simple_paths_NoDup. apply Hwf.
  - intros p. apply all_simple_paths_spec. lia.
  - intros r Hr Hb.
    destruct (emitted_In st r Hr) as (o' & e' & i & _ & _ & _ & _ & _ & ->).
    unfold between, indirect_relationship in Hb. cbn [source_id target_id] in Hb.
    apply andb_true_iff in Hb.
    destruct Hb as [Ho He]. apply String.eqb_eq in Ho, He. subst o' e'. reflexivity.
Qed.

(** ** The normaliser: claims *)

(** C4, at the input ["-"].  The identifier of a non-empty name without
    letters or digits is empty, and the empty string is normalised to the
    sentinel: normalising twice differs from normalising once. *)
Theorem sanitize_id_twice_differs :
  Normalizer.sanitize_id "-" = "" /\
  Normalizer.sanitize_id (Normalizer.sanitize_id "-") = "unknown" /\
  Normalizer.sanitize_id (Normalizer.sanitize_id "-") <> Normalizer.sanitize_id "-".
Proof. repeat split; try reflexivity. discriminate. Qed.

Lemma entities_process_media_company `{Builtins} div o st :
  entities (process_media_company div o st) =
  if c_link div
  then
    let name := match c_name div with Some n => n | None => "Unknown Company" end in
    dict_set (Normalizer.sanitize_id name)
      (mk_info (Normalizer.sanitize_id name) name "company" None (c_image div) None)
      (entities st)
  else entities st.
Proof. unfold process_media_company. destruct (c_link div); reflexivity. Qed.

(** C10.  For a non-empty name without ASCII letter or digit the
    identifier is the empty string, not the sentinel; two such names get
    the same identifier, and the entity registered for the second
    replaces the entity registered for the first. *)
Theorem punctuation_names_collide `{Builtins} (x y : string) :
  x <> "" -> Normalizer.no_alnum x -> y <> "" -> Normalizer.no_alnum y ->
  Normalizer.sanitize_id x = "" /\
  Normalizer.sanitize_id x <> "unknown" /\
  Normalizer.sanitize_id x = Normalizer.sanitize_id y /\
  forall st o px ix py iy,
    let st1 := process_media_company (mk_company true (Some x) px ix) o st in
    let st2 := process_media_company (mk_company true (Some y) py iy) o st1 in
    option_map i_name (dict_get "" (entities st1)) = Some x /\
    option_map i_name (dict_get "" (entities st2)) = Some y /\
    keys (entities st2) = keys (entities st1).
Proof.
  intros Hx Hnx Hy Hny.
  assert (Ex : Normalizer.sanitize_id x = "").
  { destruct x; [congruence|]. apply NormalizerFacts.sanitize_no_alnum. exact Hnx. }
  assert (Ey : Normalizer.sanitize_id y = "").
  { destruct y; [congruence|]. apply NormalizerFacts.sanitize_no_alnum. exact Hny. }
  rewrite Ex, Ey. split; [reflexivity|]. split; [discriminate|]. split; [reflexivity|].
  intros st o px ix py iy st1 st2. subst st1 st2.
  rewrite !entities_process_media_company. cbn [c_link c_name c_image].
  cbn zeta. rewrite Ex, Ey, keys_set, !dict_get_set, dict_mem_set. cbn.
  auto.
Qed.

Lemma punctuation_names_collide_witness :
  Normalizer.sanitize_id "***" = Normalizer.sanitize_id "-" /\
  Normalizer.sanitize_id "***" <> "unknown".
Proof.
  assert (Hn : forall s, s = "***" \/ s = "-" -> Normalizer.no_alnum s).
  { intros s [->| ->]; repeat constructor. }
  destruct (punctuation_names_collide "***" "-") as (_ & H2 & H3 & _);
    [discriminate | apply Hn; auto | discriminate | apply Hn; auto |].
  split; [exact H3 | exact H2].
Defined.

(** ** The graph: one edge per ordered pair *)


(** The graph holds one attribute dictionary per ordered pair: adding an
    edge with a type for a pair sets the type of the pair's edge, whatever
    type it had, and updates the attributes given; the edge can then be
    queried under the new type only, and the edges of other pairs are
    unchanged. *)
Lemma add_edge_overwrites_pair (g : DiGraph) (u v : string) (t : rel_type)
    (p : option number) (d : option string) :
  let g' := add_edge u v (mk_edata (Some t) p d) g in
  (forall t', has_typed_edge g' u v t' = rel_type_eqb t' t) /\
  get_edge g' u v =
    Some (edata_update
            (match get_edge g u v with Some old => old | None => edata_empty end)
            (mk_edata (Some t) p d)) /\
  (forall u' v', (String.eqb u' u && String.eqb v' v)%bool = false ->
     get_edge g' u' v' = get_edge g u' v').
Proof.
  cbn zeta. split; [|split].
  - intros t'. unfold has_typed_edge. rewrite get_edge_add_edge, !String.eqb_refl.
    reflexivity.
  - rewrite get_edge_add_edge, !String.eqb_refl. reflexivity.
  - intros u' v' H. rewrite get_edge_add_edge, H. reflexivity.
Qed.

(** ** Errors during the pass *)

(** C2, at the state [st_idle_owner].  The first owner, Z, is no node of
    the ownership-only graph; the path test raises for the first pair, the
    pass stops there and adds nothing, although the pair of A and C, not
    yet visited, has a stake of 30%. *)
Theorem error_on_one_pair_ends_pass :
  calculate_indirect_ownership st_idle_owner = (st_idle_owner, Some (NodeNotFound "z" "b")) /\
  emitted st_idle_owner = [] /\
  pair_emits (ownership_graph_of (graph st_idle_owner)) (entities st_idle_owner)
    ("a", "c") = [indirect_relationship "a" "c" 30 "C"].
Proof. vm_compute. repeat split; reflexivity. Qed.

(** ** Reachability and the path test *)

Module ReachFacts.

Section Reach.
Variable g : DiGraph.

Lemma reach_incl n : forall l x, In x l -> In x (reach g n l).
  Proof.
    induction n as [|n IH]; intros l x H; cbn [reach]; [exact H|].
    apply IH. apply in_or_app. left. exact H.
  Qed.

Lemma reach_succ n : forall l x y,
    In x (reach g n l) -> In y (successors g x) -> In y (reach g (S n) l).
  Proof.
    induction n as [|n IH]; intros l x y Hx Hy.
    - cbn [reach] in *. apply in_or_app. right. apply in_flat_map. exists x. auto.
    - change (In y (reach g (S n) (l ++ flat_map (successors g) l))).
      apply (IH _ x); [exact Hx | exact Hy].
  Qed.

Lemma reach_mono_l n : forall l l',
    incl l l' -> incl (reach g n l) (reach g n l').
  Proof.
    induction n as [|n IH]; intros l l' H; cbn [reach]; [exact H|].
    apply IH. intros x Hx. apply in_app_or in Hx. apply in_or_app.
    destruct Hx as [Hx|Hx]; [left; auto|right].
    apply in_flat_map in Hx. destruct Hx as (z & Hz & Hx).
    apply in_flat_map. exists z. auto.
  Qed.

Lemma reach_S n l x : In x (reach g n l) -> In x (reach g (S n) l).
  Proof.
    cbn [reach]. apply reach_mono_l. intros y Hy. apply in_or_app. left. exact Hy.
  Qed.

Lemma reach_le n m l x : n <= m -> In x (reach g n l) -> In x (reach g m l).
  Proof. induction 1 as [|m _ IH]; [tauto|]. intros H. apply reach_S. auto. Qed.

  (** Every node of a chain that starts at a reached node is reached. *)
Lemma reach_chain l ext : forall x n,
    In x (reach g n l) -> is_chain g (x :: ext) ->
    forall y, In y (x :: ext) -> In y (reach g (n + List.length ext) l).
  Proof.
    induction ext as [|v ext IH]; intros x n Hx Hch y Hy.
    - destruct Hy as [<-|[]]. apply (reach_le n); [lia | exact Hx].
    - destruct Hy as [<-|Hy]; [apply (reach_le n); [lia | exact Hx]|].
      destruct Hch as [Hxv Hch]. cbn [List.length].
      replace (n + S (List.length ext)) with (S n + List.length ext) by lia.
      apply (IH v); [|exact Hch|exact Hy].
      apply (reach_succ n l x); [exact Hx|]. apply has_edge_successors. exact Hxv.
  Qed.

Hypothesis Hwf : og_wf g.

Lemma chain_nodes ext : forall x,
    is_chain g (x :: ext) -> forall y, In y ext -> has_node g y = true.
  Proof.
    induction ext as [|v ext IH]; intros x Hch y Hy; [destruct Hy|].
    destruct Hch as [Hxv Hch]. destruct Hy as [<-|Hy]; [|apply (IH v); assumption].
    apply Hwf in Hxv. tauto.
  Qed.

  (** The path test succeeds where a simple path joins two distinct nodes. *)
Lemma has_path_simple_path s t p :
    simple_path g s t p -> s <> t -> has_path g s t = Ok true.
  Proof.
    intros ([m ->] & [pre E] & Hnd & Hch) Hst.
    assert (Ht : In t m).
    { destruct pre as [|x pre]; cbn [app] in E; injection E as E1 E2; [congruence|].
      rewrite E2. apply in_or_app. right. left. reflexivity. }
    assert (Hs : has_node g s = true).
    { destruct m as [|v m]; [destruct Ht|]. destruct Hch as [Hsv _].
      apply Hwf in Hsv. tauto. }
    assert (Hnodes : incl (s :: m) (keys (_succ g))).
    { intros y [<-|Hy]; apply dict_mem_In; [exact Hs|]. apply (chain_nodes m s Hch y Hy). }
    pose proof (NoDup_incl_length Hnd Hnodes) as Hlen.
    unfold keys in Hlen. rewrite length_map in Hlen. cbn [List.length] in Hlen.
    unfold has_path. rewrite Hs, (chain_nodes m s Hch t Ht). cbn [negb andb]. f_equal.
    apply mem_In. apply (reach_le (0 + List.length m)); [lia|].
    apply (reach_chain [s] m s 0); [left; reflexivity | exact Hch | right; exact Ht].
  Qed.
End Reach.

End ReachFacts.

(** ** The two-hop stake *)

Lemma NoDup_list_prod {A B : Type} (l1 : list A) (l2 : list B) :
  NoDup l1 -> NoDup l2 -> NoDup (list_prod l1 l2).
Proof.
  intros H1 H2. induction H1 as [|x l1 Hx _ IH]; cbn [list_prod]; [constructor|].
  apply NoDup_app.
  - clear -H2. induction H2 as [|y l2 Hy _ IH2]; cbn [map]; constructor; [|exact IH2].
    intros Hin. apply in_map_iff in Hin. destruct Hin as (z & E & Hz). congruence.
  - exact IH.
  - intros [a b] Ha Hb. apply in_map_iff in Ha. destruct Ha as (z & E & _).
    apply in_prod_iff in Hb. injection E as <- _. tauto.
Qed.

Lemma singleton_list {A : Type} (l : list A) (x : A) :
  NoDup l -> (forall y, In y l <-> y = x) -> l = [x].
Proof.
  intros Hnd H. destruct l as [|a l].
  - exfalso. apply (proj2 (H x) eq_refl).
  - assert (a = x) as -> by (apply H; left; reflexivity).
    destruct l as [|b l]; [reflexivity|]. exfalso.
    assert (b = x) as -> by (apply H; right; left; reflexivity).
    inversion Hnd as [|? ? Hnot _]. apply Hnot. left. reflexivity.
Qed.

Lemma pair_emits_between og ents o e r :
  In r (pair_emits og ents (o, e)) -> source_id r = o /\ target_id r = e.
Proof.
  unfold pair_emits. cbn [fst snd].
  destruct (pair_outcome_of og ents o e); cbn [In];
    [intros [] | intros [<-|[]]; split; reflexivity | intros []].
Qed.

Lemma filter_all {A : Type} (f : A -> bool) (l : list A) (b : bool) :
  (forall x, In x l -> f x = b) -> filter f l = if b then l else [].
Proof.
  induction l as [|x l IH]; intros H; [destruct b; reflexivity|].
  cbn [filter]. rewrite (H x) by (left; reflexivity).
  rewrite IH by (intros y Hy; apply H; right; exact Hy). destruct b; reflexivity.
Qed.

(** Among the relationships added over distinct pairs, those from [a] to
    [c] are the ones added for that pair. *)
Lemma filter_pair_emits og ents a c pairs :
  NoDup pairs -> In (a, c) pairs ->
  filter (between a c) (flat_map (pair_emits og ents) pairs) = pair_emits og ents (a, c).
Proof.
  assert (Hother : forall l, ~ In (a, c) l ->
            filter (between a c) (flat_map (pair_emits og ents) l) = []).
  { induction l as [|[o e] l IH]; intros Hn; [reflexivity|].
    cbn [flat_map]. rewrite filter_app, IH by (intros H; apply Hn; right; exact H).
    rewrite (filter_all _ _ false); [reflexivity|].
    intros r Hr. apply pair_emits_between in Hr. destruct Hr as [<- <-].
    unfold between. destruct (String.eqb_spec (source_id r) a) as [Ea|]; [|reflexivity].
    destruct (String.eqb_spec (target_id r) c) as [Ec|]; [|reflexivity].
    exfalso. apply Hn. left. congruence. }
  induction 1 as [|[o e] l Hnot Hnd IH]; intros Hin; [destruct Hin|].
  cbn [flat_map]. rewrite filter_app. destruct Hin as [E|Hin].
  - injection E as -> ->. rewrite (Hother l Hnot), app_nil_r.
    rewrite (filter_all _ _ true); [reflexivity|].
    intros r Hr. apply pair_emits_between in Hr. destruct Hr as [E1 E2].
    unfold between. rewrite E1, E2, !String.eqb_refl. reflexivity.
  - rewrite (IH Hin). rewrite (filter_all _ _ false); [reflexivity|].
    intros r Hr. apply pair_emits_between in Hr. destruct Hr as [<- <-].
    unfold between. destruct (String.eqb_spec (source_id r) a) as [Ea|]; [|reflexivity].
    destruct (String.eqb_spec (target_id r) c) as [Ec|]; [|reflexivity].
    exfalso. apply Hnot. congruence.
Qed.

(** C1 as stated fails: in [st_two_paths] the ownership-only graph has the
    edges from A to B (60%) and from B to C (50%) and none from A to C, A
    is an owner and C an entity, and the relationship added from A to C
    has 50%, since the path over D counts as well. *)
Lemma two_hop_stake_not_always_30 :
  let st := st_two_paths in
  let og := ownership_graph_of (graph st) in
  edge_percentage og "a" "b" = Ok (PFloat 60) /\
  edge_percentage og "b" "c" = Ok (PFloat 50) /\
  has_edge og "a" "c" = false /\
  In "a" (keys (owners st)) /\ In "c" (keys (entities st)) /\
  snd (calculate_indirect_ownership st) = None /\
  filter (between "a" "c") (emitted st) =
    [mk_rel "a" "c" indirect_owns (PFloat 50) "Indirectly owns 50.00% of C"] /\
  ~ In (mk_rel "a" "c" indirect_owns (PFloat 30) "Indirectly owns 30.00% of C")
      (emitted st).
Proof.
  vm_compute. repeat split; try reflexivity; try tauto.
  intros H. repeat (destruct H as [H|H]; [discriminate H|]). exact H.
Qed.

Lemma path_product_two_hops og a b c :
  edge_percentage og a b = Ok (PFloat 60) ->
  edge_percentage og b c = Ok (PFloat 50) ->
  path_product og [a; b; c] = 30%float.
Proof.
  intros H1 H2. unfold path_product, path_edges. cbn [tl combine fold_left fst snd].
  rewrite (PercentFacts.edge_percentage_pct _ _ _ _ H1),
          (PercentFacts.edge_percentage_pct _ _ _ _ H2).
  vm_compute. reflexivity.
Qed.

(** C1, amended.  Where the ownership-only graph has the edge from A to B
    with 60% and the edge from B to C with 50%, no edge from A to C, and
    A, B, C is the only simple path of at most three edges from A to C,
    with A a key of the owners and C a key of the entities, a pass that
    completes without a logged error adds exactly one relationship from
    A to C: of type [indirect_owns], with percentage 30.0 and the
    description "Indirectly owns 30.00% of" followed by the name of C. *)
Theorem two_hop_indirect_stake (st : extractor) (a b c : string) (i : info) :
  let og := ownership_graph_of (graph st) in
  NoDup (keys (owners st)) -> NoDup (keys (entities st)) ->
  In a (keys (owners st)) -> dict_get c (entities st) = Some i ->
  edge_percentage og a b = Ok (PFloat 60) ->
  edge_percentage og b c = Ok (PFloat 50) ->
  has_edge og a c = false ->
  (forall p, simple_path og a c p /\ hops p <= 3 <-> p = [a; b; c]) ->
  snd (calculate_indirect_ownership st) = None ->
  filter (between a c) (emitted st) =
    [mk_rel a c indirect_owns (PFloat 30) ("Indirectly owns 30.00% of " ++ i_name i)].
Proof.
  intros og Hno Hne Ha Hc Hab Hbc Hac Honly Hdone.
  pose proof (og_wf_ownership_graph (graph st)) as Hwf. fold og in Hwf.
  assert (Hpaths : all_simple_paths og a c 3 = [[a; b; c]]).
  { apply singleton_list; [apply all_simple_paths_NoDup; apply Hwf|].
    intros p. rewrite <- Honly. apply all_simple_paths_spec. lia. }
  assert (Htot : total_indirect og a c = 30%float).
  { unfold total_indirect. rewrite Hpaths. cbn [fold_left].
    rewrite (path_product_two_hops og a b c Hab Hbc). vm_compute. reflexivity. }
  assert (Hsp : simple_path og a c [a; b; c]) by (apply (proj2 (Honly _) eq_refl)).
  assert (Hanc : a <> c).
  { destruct Hsp as (_ & _ & Hnd & _). inversion Hnd as [|? ? Hnot _]; subst.
    intros ->. apply Hnot. right. left. reflexivity. }
  assert (Hout : pair_emits og (entities st) (a, c) =
                 [indirect_relationship a c 30 (i_name i)]).
  { unfold pair_emits, pair_outcome_of. cbn [fst snd].
    rewrite Hac, (ReachFacts.has_path_simple_path og Hwf a c _ Hsp Hanc), Htot, Hc.
    reflexivity. }
  destruct (calculate_outcome st) as (_ & _ & _ & Hsnd & _). cbn zeta in Hsnd.
  fold og in Hsnd.
  rewrite Hdone in Hsnd. symmetry in Hsnd.
  rewrite emitted_outcome. fold og. rewrite (pass_outcome_complete _ _ _ Hsnd).
  rewrite filter_pair_emits.
  - rewrite Hout. reflexivity.
  - apply NoDup_list_prod; assumption.
  - apply in_prod_iff. split; [exact Ha|].
    apply dict_mem_In. unfold dict_mem. rewrite Hc. reflexivity.
Qed.

Lemma chain_only_path (p : list string) :
  simple_path (ownership_graph_of (graph st_chain)) "a" "c" p /\ hops p <= 3 <->
  p = ["a"; "b"; "c"].
Proof.
  rewrite <- (all_simple_paths_spec _ _ _ 3 p) by lia.
  let l := eval vm_compute in
            (all_simple_paths (ownership_graph_of (graph st_chain)) "a" "c" 3) in
  change (all_simple_paths (ownership_graph_of (graph st_chain)) "a" "c" 3) with l.
  cbn [In]. intuition congruence.
Qed.

Lemma two_hop_indirect_stake_witness :
  filter (between "a" "c") (emitted st_chain) =
    [mk_rel "a" "c" indirect_owns (PFloat 30) "Indirectly owns 30.00% of C"].
Proof.
  apply (two_hop_indirect_stake st_chain "a" "b" "c"
           (mk_info "c" "C" "company" None "" None)).
  - vm_compute. repeat constructor; cbn; intuition discriminate.
  - vm_compute. repeat constructor; cbn; intuition discriminate.
  - vm_compute. tauto.
  - vm_compute. reflexivity.
  - vm_compute. reflexivity.
  - vm_compute. reflexivity.
  - vm_compute. reflexivity.
  - exact chain_only_path.
  - vm_compute. reflexivity.
Defined.

(** ** Direct relationships: registry, graph and list *)

Module DirectFacts.

Lemma grows_refl st : grows st st.
Proof. split; auto. Qed.

Lemma grows_trans st1 st2 st3 : grows st1 st2 -> grows st2 st3 -> grows st1 st3.
Proof. intros [H1 H2] [H3 H4]. split; auto. Qed.

Lemma rel_ok_grows st st' r : grows st st' -> rel_ok st r -> rel_ok st' r.
Proof. intros [H1 H2] (A & B & C & D). repeat split; auto. Qed.

Lemma appends_only_refl P st : appends_only P st st.
Proof. exists []. rewrite app_nil_r. auto. Qed.

Lemma appends_only_trans P st1 st2 st3 :
  appends_only P st1 st2 -> appends_only P st2 st3 -> appends_only P st1 st3.
Proof.
  intros (n1 & E1 & F1) (n2 & E2 & F2). exists (n1 ++ n2).
  rewrite E2, E1, app_assoc. split; [reflexivity | apply Forall_app; auto].
Qed.

Lemma fold_left_invariant {A : Type} (f : extractor -> A -> extractor)
    (Q : extractor -> Prop) (l : list A) :
  (forall st x, Q st -> Q (f st x)) -> forall st, Q st -> Q (fold_left f l st).
Proof. intros Hf. induction l as [|x l IH]; intros st H; cbn [fold_left]; auto. Qed.

Lemma fold_left_related {A : Type} (f : extractor -> A -> extractor)
    (R : extractor -> extractor -> Prop) (l : list A) :
  (forall st, R st st) -> (forall a b c, R a b -> R b c -> R a c) ->
  (forall st x, R st (f st x)) -> forall st, R st (fold_left f l st).
Proof.
  intros Hr Ht Hf. induction l as [|x l IH]; intros st; cbn [fold_left]; [apply Hr|].
  apply (Ht _ (f st x)); [apply Hf | apply IH].
Qed.

(** Appending a relationship between registered identifiers in a state
    whose registry lies in the graph, then adding its edge. *)
Lemma relate_ok st st1 o t r attr :
  references_ok st -> grows st st1 -> relationships st1 = relationships st ->
  registry_in_graph st1 -> registered st o -> registered st1 t ->
  source_id r = o -> target_id r = t ->
  let st' := on_graph (add_edge o t attr) (append_relationship r st1) in
  references_ok st' /\ grows st st' /\ appends_at st st' r /\
  relationships st' = relationships st ++ [r].
Proof.
  intros [Hreg Hrels] Hg Hsame Hreg1 Ho Ht Es Et st'.
  assert (Hg' : grows st1 st').
  { split; [auto|]. intros k Hk. unfold st'. cbn [on_graph append_relationship graph].
    rewrite has_node_add_edge, Hk, !orb_true_r. reflexivity. }
  assert (Hr : rel_ok st1 r).
  { rewrite <- Es in Ho. rewrite <- Et in Ht. destruct Hg as [Hg1 _].
    repeat split; auto. }
  split; [|split; [|split]].
  - split.
    + intros k Hk. apply Hg'. apply Hreg1. exact Hk.
    + unfold st' at 2. cbn [on_graph append_relationship relationships].
      rewrite Hsame. apply Forall_app. split.
      * eapply Forall_impl; [|exact Hrels]. intros x Hx.
        apply (rel_ok_grows st1); [exact Hg'|]. apply (rel_ok_grows st); assumption.
      * constructor; [|constructor]. apply (rel_ok_grows st1); assumption.
  - apply (grows_trans _ st1); assumption.
  - exists st1, attr. split; [exact Hsame|]. split; [exact Hg|]. split; [exact Hr|].
    rewrite Es, Et. reflexivity.
  - unfold st'. cbn [on_graph append_relationship relationships]. rewrite Hsame.
    reflexivity.
Qed.

(** Registering an identifier with its node. *)
Lemma register_entity_ok st k i n :
  registry_in_graph st ->
  let st1 := on_graph (add_node k n) (set_entity k i st) in
  grows st st1 /\ relationships st1 = relationships st /\
  registry_in_graph st1 /\ registered st1 k.
Proof.
  intros Hreg st1.
  assert (Hr : forall x, registered st1 x <-> x = k \/ registered st x).
  { intros x. unfold registered, st1. cbn [on_graph set_entity owners entities].
    rewrite keys_set_In. tauto. }
  assert (Hn : forall x, has_node (graph st1) x = (String.eqb x k || has_node (graph st) x)%bool).
  { intros x. apply has_node_add_node. }
  repeat split.
  - intros x Hx. apply Hr. auto.
  - intros x Hx. rewrite Hn, Hx. apply orb_true_r.
  - intros x Hx. rewrite Hn. apply Hr in Hx. destruct Hx as [->|Hx].
    + rewrite String.eqb_refl. reflexivity.
    + rewrite (Hreg x Hx). apply orb_true_r.
  - apply Hr. auto.
Qed.

Lemma register_owner_ok st k i n :
  registry_in_graph st ->
  let st1 := on_graph (add_node k n) (set_owner k i st) in
  grows st st1 /\ relationships st1 = relationships st /\
  registry_in_graph st1 /\ registered st1 k.
Proof.
  intros Hreg st1.
  assert (Hr : forall x, registered st1 x <-> x = k \/ registered st x).
  { intros x. unfold registered, st1. cbn [on_graph set_owner owners entities].
    rewrite keys_set_In. tauto. }
  assert (Hn : forall x, has_node (graph st1) x = (String.eqb x k || has_node (graph st) x)%bool).
  { intros x. apply has_node_add_node. }
  repeat split.
  - intros x Hx. apply Hr. auto.
  - intros x Hx. rewrite Hn, Hx. apply orb_true_r.
  - intros x Hx. rewrite Hn. apply Hr in Hx. destruct Hx as [->|Hx].
    + rewrite String.eqb_refl. reflexivity.
    + rewrite (Hreg x Hx). apply orb_true_r.
  - apply Hr. auto.
Qed.

Section Operations.
Context `{Builtins}.

Lemma process_media_company_ok div o st :
  references_ok st -> registered st o ->
  step_ok st (process_media_company div o st) /\
  (c_link div = true -> process_media_company div o st <> st).
Proof.
  intros Hok Ho. unfold process_media_company.
  destruct (c_link div); cbn [negb].
  2:{ split; [|discriminate]. split; [exact Hok|]. split; [apply grows_refl | left; reflexivity]. }
  cbn zeta.
  set (name := match c_name div with Some n => n | None => "Unknown Company" end).
  set (cid := Normalizer.sanitize_id name).
  match goal with
  | |- context [append_relationship ?r (on_graph (add_node cid ?n) (set_entity cid ?i st))] =>
      destruct (register_entity_ok st cid i n (proj1 Hok)) as (G & S & R & K);
      destruct (relate_ok st _ o cid r
                  (mk_edata (Some owns) (Some (c_percentage div)) (Some (description r)))
                  Hok G S R Ho K eq_refl eq_refl) as (A & B & C & D)
  end.
  split.
  - split; [exact A|]. split; [exact B|]. right. eexists. split; [exact C|].
    split; [discriminate | exact D].
  - intros _ E. rewrite E in D. apply (f_equal (@List.length _)) in D.
    rewrite length_app in D. cbn in D. lia.
Qed.

Lemma process_media_outlet_ok div o st :
  references_ok st -> registered st o ->
  step_ok st (process_media_outlet div o st).
Proof.
  intros Hok Ho. unfold process_media_outlet.
  destruct (o_link div); cbn [negb].
  2:{ split; [exact Hok|]. split; [apply grows_refl | left; reflexivity]. }
  cbn zeta.
  set (name := match o_name div with Some n => n | None => "Unknown Outlet" end).
  set (oid := Normalizer.sanitize_id name).
  match goal with
  | |- context [append_relationship ?r (on_graph (add_node oid ?n) (set_entity oid ?i st))] =>
      destruct (register_entity_ok st oid i n (proj1 Hok)) as (G & S & R & K);
      destruct (relate_ok st _ o oid r
                  (mk_edata (Some owns) (Some (o_percentage div)) (Some (description r)))
                  Hok G S R Ho K eq_refl eq_refl) as (A & B & C & D)
  end.
  split; [exact A|]. split; [exact B|]. right. eexists. split; [exact C|].
  split; [discriminate | exact D].
Qed.

Lemma relationship_type_direct d : relationship_type_of d <> indirect_owns.
Proof.
  unfold relationship_type_of.
  repeat match goal with |- context [if ?b then _ else _] => destruct b end;
    discriminate.
Qed.

Lemma process_family_member_ok text o st :
  references_ok st -> registered st o ->
  step_ok st (process_family_member text o st).
Proof.
  intros Hok Ho. unfold process_family_member.
  assert (Hsame : step_ok st st).
  { split; [exact Hok|]. split; [apply grows_refl | left; reflexivity]. }
  destruct (String.eqb (f_name text) "" || Nat.ltb (py_len (f_name text)) 3)%bool;
    [exact Hsame|].
  cbn zeta. set (fid := Normalizer.sanitize_id (f_name text)).
  destruct (String.eqb fid o); [exact Hsame|].
  set (rt := relationship_type_of (f_description text)).
  set (r := mk_rel o fid rt PInt0 (f_description text)).
  set (attr := mk_edata (Some rt) None (Some (f_description text))).
  destruct (negb (dict_mem fid (owners st)) && negb (dict_mem fid (entities st)))%bool eqn:Enew.
  - match goal with
    | |- context [on_graph (add_node fid ?n) (set_owner fid ?i st)] =>
        destruct (register_owner_ok st fid i n (proj1 Hok)) as (G & S & R & K)
    end.
    destruct (relate_ok st _ o fid r attr Hok G S R Ho K eq_refl eq_refl) as (A & B & C & D).
    split; [exact A|]. split; [exact B|]. right. exists r. split; [exact C|].
    split; [apply relationship_type_direct | exact D].
  - assert (K : registered st fid).
    { unfold registered. rewrite <- !dict_mem_In.
      destruct (dict_mem fid (owners st)); [left; reflexivity|].
      destruct (dict_mem fid (entities st)); [right; reflexivity|discriminate]. }
    destruct (relate_ok st st o fid r attr Hok (grows_refl st) eq_refl (proj1 Hok) Ho K
                eq_refl eq_refl) as (A & B & C & D).
    split; [exact A|]. split; [exact B|]. right. exists r. split; [exact C|].
    split; [apply relationship_type_direct | exact D].
Qed.

Lemma step_page_ok o st st' : step_ok st st' -> registered st o ->
  references_ok st' /\ registered st' o /\ appends_only is_direct st st'.
Proof.
  intros (A & [G _] & C) Ho. split; [exact A|]. split; [auto|].
  destruct C as [->|(r & _ & Hd & E)]; [apply appends_only_refl|].
  exists [r]. split; [exact E | constructor; [exact Hd | constructor]].
Qed.

Lemma fold_steps {A : Type} (f : extractor -> A -> extractor) (o : string) (l : list A) :
  (forall st x, references_ok st -> registered st o -> step_ok st (f st x)) ->
  forall st, references_ok st -> registered st o ->
    references_ok (fold_left f l st) /\ registered (fold_left f l st) o /\
    appends_only is_direct st (fold_left f l st).
Proof.
  intros Hf. induction l as [|x l IH]; intros st Hok Ho; cbn [fold_left].
  - repeat split; trivial; try apply Hok. apply appends_only_refl.
  - destruct (step_page_ok o st _ (Hf st x Hok Ho) Ho) as (A1 & B1 & C1).
    destruct (IH _ A1 B1) as (A2 & B2 & C2).
    repeat split; trivial; try apply A2. apply (appends_only_trans _ _ _ _ C1 C2).
Qed.

Lemma process_html_file_ok pg st :
  references_ok st ->
  references_ok (process_html_file pg st) /\
  appends_only is_direct st (process_html_file pg st).
Proof.
  intros Hok. unfold process_html_file. cbn zeta.
  set (oid := Normalizer.sanitize_id (p_owner_name pg)).
  match goal with
  | |- context [on_graph (add_node oid ?n) (set_owner oid ?i st)] =>
      destruct (register_owner_ok st oid i n (proj1 Hok)) as (G & S & R & K);
      set (st0 := on_graph (add_node oid n) (set_owner oid i st)) in *
  end.
  assert (Hok0 : references_ok st0).
  { split; [exact R|]. rewrite S. eapply Forall_impl; [|apply Hok].
    intros r. apply rel_ok_grows. exact G. }
  assert (A0 : appends_only is_direct st st0).
  { exists []. rewrite app_nil_r. split; [exact S | constructor]. }
  destruct (fold_steps (fun st div => process_media_company div oid st) oid (p_companies pg)
              (fun st x Hs Ho => proj1 (process_media_company_ok x oid st Hs Ho)) st0 Hok0 K)
    as (A1 & B1 & C1).
  destruct (fold_steps (fun st div => process_media_outlet div oid st) oid (p_outlets pg)
              (fun st x Hs Ho => process_media_outlet_ok x oid st Hs Ho) _ A1 B1)
    as (A2 & B2 & C2).
  destruct (fold_steps (fun st text => process_family_member text oid st) oid (p_family pg)
              (fun st x Hs Ho => process_family_member_ok x oid st Hs Ho) _ A2 B2)
    as (A3 & B3 & C3).
  split; [exact A3|].
  apply (appends_only_trans _ _ _ _ A0).
  apply (appends_only_trans _ _ _ _ C1). apply (appends_only_trans _ _ _ _ C2). exact C3.
Qed.

Lemma references_ok_init : references_ok init.
Proof. split; [intros k [[]|[]] | constructor]. Qed.

Lemma direct_phase_snoc pages pg :
  direct_phase (pages ++ [pg]) = process_html_file pg (direct_phase pages).
Proof. unfold direct_phase. rewrite fold_left_app. reflexivity. Qed.

Lemma direct_phase_ok pages :
  references_ok (direct_phase pages) /\
  Forall is_direct (relationships (direct_phase pages)).
Proof.
  induction pages as [|pg pages IH] using rev_ind.
  - split; [apply references_ok_init | constructor].
  - rewrite direct_phase_snoc. destruct IH as [A B].
    destruct (process_html_file_ok pg _ A) as (A' & news & E & F).
    split; [exact A'|]. rewrite E. apply Forall_app. auto.
Qed.

End Operations.

End DirectFacts.

(** ** Claims about the stored relationships *)

Import DirectFacts.

Lemma emitted_rel_ok (st : extractor) :
  registry_in_graph st -> Forall (rel_ok st) (emitted st).
Proof.
  intros Hreg. apply Forall_forall. intros r Hr.
  destruct (emitted_In st r Hr) as (o & e & i & Hin & _ & _ & _ & _ & ->).
  apply in_prod_iff in Hin. destruct Hin as [Ho He].
  unfold rel_ok, indirect_relationship. cbn [source_id target_id].
  assert (registered st o) by (left; exact Ho).
  assert (registered st e) by (right; exact He).
  repeat split; auto.
Qed.

Lemma calculate_references_ok (st : extractor) :
  references_ok st -> references_ok (fst (calculate_indirect_ownership st)).
Proof.
  intros [Hreg Hrels]. destruct (calculate_outcome st) as (E & Eo & Ee & _ & Hn).
  cbn zeta in *. rewrite <- emitted_outcome in E.
  set (st' := fst (calculate_indirect_ownership st)) in *.
  assert (G : grows st st').
  { split; [|exact Hn]. unfold registered. rewrite Eo, Ee. tauto. }
  split.
  - intros k Hk. apply Hn. apply Hreg. unfold registered in *.
    rewrite Eo, Ee in Hk. exact Hk.
  - rewrite E. apply Forall_app. split; (eapply Forall_impl; [intros r; apply rel_ok_grows; exact G|]).
    + exact Hrels.
    + apply emitted_rel_ok. exact Hreg.
Qed.

(** C8.  In a state where every stored relationship refers to registered
    identifiers that are nodes of the graph, each operation that appends a
    relationship appends it at a moment when its source and its target are
    keys of the owners or of the entities and nodes of the graph, and
    leaves a state of the same kind: the processing of a company, of an
    outlet and of a family member for a registered owner, the processing
    of a page, and the indirect-ownership pass, whose relationships have
    valid references already in the state before the pass. *)
Theorem appended_relationships_reference_registry `{Builtins} (st : extractor) :
  references_ok st ->
  (forall div o, registered st o -> step_ok st (process_media_company div o st)) /\
  (forall div o, registered st o -> step_ok st (process_media_outlet div o st)) /\
  (forall text o, registered st o -> step_ok st (process_family_member text o st)) /\
  (forall pg, references_ok (process_html_file pg st)) /\
  Forall (rel_ok st) (emitted st) /\
  references_ok (fst (calculate_indirect_ownership st)).
Proof.
  intros Hok. split; [|split; [|split; [|split; [|split]]]].
  - intros div o Ho. apply process_media_company_ok; assumption.
  - intros div o Ho. apply process_media_outlet_ok; assumption.
  - intros text o Ho. apply process_family_member_ok; assumption.
  - intros pg. apply process_html_file_ok. exact Hok.
  - apply emitted_rel_ok. apply Hok.
  - apply calculate_references_ok. exact Hok.
Qed.

Lemma st_chain_references_ok : references_ok st_chain.
Proof.
  split.
  - intros k [Hk|Hk]; vm_compute in Hk;
      repeat (destruct Hk as [<-|Hk]; [vm_compute; reflexivity|]); destruct Hk.
  - vm_compute.
    repeat (apply Forall_cons; [cbv beta; repeat split; auto 10|]). apply Forall_nil.
Qed.

Lemma appended_relationships_witness :
  references_ok st_chain /\
  Forall (rel_ok st_chain) (emitted st_chain) /\
  references_ok (fst (calculate_indirect_ownership st_chain)).
Proof.
  split; [exact st_chain_references_ok|].
  pose proof (appended_relationships_reference_registry st_chain st_chain_references_ok) as T.
  split; apply T.
Defined.

(** The pass leaves the stored relationships in place and appends its
    own, all of type [indirect_owns]; the direct relationships have other
    types, and a further page only appends to them. *)
Lemma rows_prefix_and_types `{Builtins} :
  (forall st,
     relationships (fst (calculate_indirect_ownership st)) =
       relationships st ++ emitted st /\
     Forall (fun r => r_type r = indirect_owns) (emitted st)) /\
  (forall pages,
     let direct := relationships (direct_phase pages) in
     let indirect := emitted (direct_phase pages) in
     let rows := net_relationships (extract_all_data pages) in
     rows = direct ++ indirect /\
     Forall is_direct direct /\
     Forall (fun r => r_type r = indirect_owns) indirect /\
     List.length rows = List.length direct + List.length indirect) /\
  (forall pages pg,
     appends_only is_direct (direct_phase pages) (direct_phase (pages ++ [pg]))).
Proof.
  assert (Hcalc : forall st,
            relationships (fst (calculate_indirect_ownership st)) =
              relationships st ++ emitted st /\
            Forall (fun r => r_type r = indirect_owns) (emitted st)).
  { intros st. split.
    - rewrite emitted_outcome. apply calculate_outcome.
    - apply Forall_forall. intros r Hr.
      destruct (emitted_In st r Hr) as (o & e & i & _ & _ & _ & _ & _ & ->). reflexivity. }
  split; [exact Hcalc|]. split.
  - intros pages direct indirect rows. subst direct indirect rows.
    unfold extract_all_data. cbn [build_network net_relationships].
    destruct (Hcalc (direct_phase pages)) as [E F]. rewrite E, length_app.
    repeat split; trivial. apply direct_phase_ok.
  - intros pages pg. rewrite direct_phase_snoc.
    apply process_html_file_ok. apply direct_phase_ok.
Qed.

(** * Further properties of the code *)

(** ** Shape and content of identifiers *)

Module IdShapeFacts.
Import Normalizer NormalizerFacts IdShape.

Lemma lstrip_head (l r : list ascii) : lstrip l <> underscore :: r.
Proof.
  induction l as [|c l IH]; cbn [lstrip]; [discriminate|].
  destruct (Ascii.eqb_spec c underscore) as [->|Hc]; [exact IH|]. congruence.
Qed.

Lemma strip_head (l r : list ascii) : strip l <> underscore :: r.
Proof.
  unfold strip. intros E. destruct (rstrip_prefix (lstrip l)) as [q Hq].
  rewrite E in Hq. cbn [app] in Hq. exact (lstrip_head _ _ Hq).
Qed.

Lemma strip_last (l r : list ascii) : strip l <> r ++ [underscore].
Proof.
  unfold strip, rstrip. intros E. apply (f_equal (@rev ascii)) in E.
  rewrite rev_involutive, rev_app_distr in E. cbn [rev app] in E.
  exact (lstrip_head _ _ E).
Qed.

Lemma normal_form_shape (l : list ascii) :
  Forall (fun c => id_char c = true) (normal_form l) /\ no_adj (normal_form l).
Proof.
  destruct (strip_segment (collapse (lower (sub_special l)))) as (p & q & E).
  fold (normal_form l) in E. split.
  - eapply Forall_segment; [exact E|]. apply collapse_sub, id_chars_lower_sub.
  - pose proof (collapse_no_adj (lower (sub_special l))) as H. rewrite E in H.
    apply no_adj_app in H. destruct H as [_ H]. apply no_adj_app in H. tauto.
Qed.

Lemma filter_collapse (l : list ascii) :
  non_separators (collapse l) = non_separators l.
Proof.
  unfold non_separators, is_sep. induction l as [|c l IH]; [reflexivity|].
  cbn [collapse]. destruct (Ascii.eqb c underscore) eqn:Ec.
  - destruct l as [|d l].
    + cbn [collapse filter]. rewrite Ec. reflexivity.
    + destruct (Ascii.eqb d underscore) eqn:Ed.
      * rewrite IH. cbn [filter]. rewrite Ec. reflexivity.
      * cbn [filter] in *. rewrite Ec. cbn [negb]. exact IH.
  - cbn [filter]. rewrite Ec. cbn [negb]. f_equal. exact IH.
Qed.

Lemma filter_lstrip (l : list ascii) :
  non_separators (lstrip l) = non_separators l.
Proof.
  unfold non_separators, is_sep. induction l as [|c l IH]; [reflexivity|].
  cbn [lstrip]. destruct (Ascii.eqb c underscore) eqn:Ec.
  - cbn [filter]. rewrite Ec. exact IH.
  - reflexivity.
Qed.

Lemma filter_strip (l : list ascii) : non_separators (strip l) = non_separators l.
Proof.
  unfold strip, rstrip. unfold non_separators at 1. rewrite filter_rev.
  fold (non_separators (lstrip (rev (lstrip l)))). rewrite filter_lstrip.
  unfold non_separators at 1. rewrite filter_rev, rev_involutive.
  apply filter_lstrip.
Qed.

Lemma alnum_lower_not_sep (c : ascii) :
  is_alnum c = true -> is_sep (lower_char c) = false.
Proof.
  destruct c as [[] [] [] [] [] [] [] []]; cbv; intros E;
    first [discriminate E | reflexivity].
Qed.

Lemma filter_lower_sub (l : list ascii) :
  non_separators (lower (sub_special l)) = map lower_char (filter is_alnum l).
Proof.
  unfold non_separators. induction l as [|c l IH]; [reflexivity|].
  cbn [sub_special lower map filter]. destruct (is_alnum c) eqn:Ec.
  - rewrite (alnum_lower_not_sep c Ec). cbn [negb map]. f_equal. exact IH.
  - change (is_sep (lower_char underscore)) with true. cbn [negb]. exact IH.
Qed.

Lemma normal_form_content (l : list ascii) :
  non_separators (normal_form l) = map lower_char (filter is_alnum l).
Proof.
  unfold normal_form. rewrite filter_strip, filter_collapse. apply filter_lower_sub.
Qed.

Lemma lower_sub_lower (l : list ascii) :
  lower (sub_special (lower l)) = lower (sub_special l).
Proof.
  induction l as [|c l IH]; [reflexivity|].
  cbn [lower sub_special map]. f_equal; [|exact IH].
  destruct c as [[] [] [] [] [] [] [] []]; reflexivity.
Qed.

End IdShapeFacts.

Import Normalizer IdShape.

(** X1.  Whatever the name, the identifier is well formed: its characters
    are lower-case ASCII letters, digits and the separator, no two
    separators follow each other, and it neither starts nor ends with a
    separator. *)
Theorem sanitize_id_well_formed (x : string) : well_formed_id (sanitize_id x).
Proof.
  destruct x as [|c x].
  - cbv. split; [repeat constructor|]. split; [intuition discriminate|].
    split; intros r E; [discriminate E|].
    repeat (destruct r as [|? r]; [discriminate E|]; injection E as _ E).
    destruct r; discriminate E.
  - unfold well_formed_id, sanitize_id. cbn zeta.
    rewrite list_ascii_of_string_of_list_ascii.
    fold (normal_form (list_ascii_of_string (String c x))).
    destruct (IdShapeFacts.normal_form_shape (list_ascii_of_string (String c x))) as [A B].
    split; [exact A|]. split; [exact B|].
    split; intros r; [apply IdShapeFacts.strip_head | apply IdShapeFacts.strip_last].
Qed.

(** X2.  Where the identifier of a name is not empty, it is its own
    identifier. *)
Theorem sanitize_id_idempotent_on_nonempty (x : string) :
  sanitize_id x <> "" -> sanitize_id (sanitize_id x) = sanitize_id x.
Proof. apply NormalizerFacts.sanitize_id_idem_nonempty. Qed.

Lemma sanitize_id_idempotent_witness :
  sanitize_id "Capital Maharaja (Pvt) Ltd." <> "" /\
  sanitize_id (sanitize_id "Capital Maharaja (Pvt) Ltd.") =
    sanitize_id "Capital Maharaja (Pvt) Ltd.".
Proof.
  assert (H : sanitize_id "Capital Maharaja (Pvt) Ltd." <> "")
    by (vm_compute; discriminate).
  split; [exact H | exact (sanitize_id_idempotent_on_nonempty _ H)].
Defined.

Lemma sanitize_content (x : string) :
  x <> "" ->
  non_separators (list_ascii_of_string (sanitize_id x)) = alnum_skeleton x.
Proof.
  destruct x as [|c x]; [congruence|]. intros _. unfold sanitize_id. cbn zeta.
  rewrite list_ascii_of_string_of_list_ascii. apply IdShapeFacts.normal_form_content.
Qed.

(** X3.  For a non-empty name, the characters of the identifier other
    than separators are the ASCII letters and digits of the name,
    lower-cased, in their order: nothing else of the name is kept and no
    letter or digit is lost. *)
Theorem sanitize_id_keeps_letters_and_digits (x : string) :
  x <> "" ->
  non_separators (list_ascii_of_string (sanitize_id x)) = alnum_skeleton x.
Proof. exact (sanitize_content x). Qed.

Lemma sanitize_id_keeps_witness :
  "A-1 News" <> "" /\
  non_separators (list_ascii_of_string (sanitize_id "A-1 News")) =
    list_ascii_of_string "a1news".
Proof.
  assert (H : "A-1 News" <> "") by discriminate.
  split; [exact H|]. rewrite (sanitize_id_keeps_letters_and_digits _ H). reflexivity.
Defined.

(** X4.  The identifier is empty exactly for the non-empty names without
    an ASCII letter or digit; for every other name it is not empty. *)
Theorem sanitize_id_empty_iff (x : string) :
  sanitize_id x = "" <-> x <> "" /\ no_alnum x.
Proof.
  split.
  - intros E. destruct x as [|c x]; [discriminate E|]. split; [discriminate|].
    pose proof (sanitize_content (String c x)) as H.
    rewrite E in H. specialize (H ltac:(discriminate)). unfold alnum_skeleton in H.
    change (non_separators (list_ascii_of_string "")) with (@nil ascii) in H.
    unfold no_alnum. symmetry in H. apply map_eq_nil in H.
    apply Forall_forall. intros a Ha.
    destruct (is_alnum a) eqn:Ea; [|reflexivity]. exfalso.
    assert (Hin : In a (filter is_alnum (list_ascii_of_string (String c x))))
      by (apply filter_In; auto).
    rewrite H in Hin. destruct Hin.
  - intros [Hx Hn]. destruct x as [|c x]; [congruence|].
    apply NormalizerFacts.sanitize_no_alnum. exact Hn.
Qed.

(** X5.  The identifier does not depend on the ASCII case of the name:
    lower-casing the letters A to Z of a name leaves its identifier
    unchanged, so names that differ only in case share one identifier. *)
Theorem sanitize_id_ignores_case (x : string) :
  sanitize_id (ascii_lower x) = sanitize_id x.
Proof.
  destruct x as [|c x]; [reflexivity|].
  unfold ascii_lower. cbn [list_ascii_of_string lower map string_of_list_ascii].
  unfold sanitize_id. cbn zeta.
  change (list_ascii_of_string
            (String (lower_char c)
               (string_of_list_ascii (map lower_char (list_ascii_of_string x)))))
    with (lower_char c ::
          list_ascii_of_string (string_of_list_ascii (lower (list_ascii_of_string x)))).
  rewrite list_ascii_of_string_of_list_ascii.
  change (lower_char c :: lower (list_ascii_of_string x))
    with (lower (list_ascii_of_string (String c x))).
  rewrite IdShapeFacts.lower_sub_lower. reflexivity.
Qed.

(** ** When the pass completes, and what it then adds *)

Import PassProps.

Module PassOutcomeFacts.

Lemma has_path_raise og o e x :
  has_path og o e = Raise x <->
  x = NodeNotFound o e /\ (has_node og o = false \/ has_node og e = false).
Proof.
  unfold has_path. destruct (has_node og o), (has_node og e); cbn [andb negb];
    split; try discriminate; intuition (try discriminate; congruence).
Qed.

Lemma pair_outcome_fail og ents o e x :
  og_wf og -> In e (keys ents) ->
  pair_outcome_of og ents o e = Fail x <->
  x = NodeNotFound o e /\ (has_node og o = false \/ has_node og e = false).
Proof.
  intros Hwf He. apply dict_mem_In in He. unfold dict_mem in He.
  unfold pair_outcome_of. destruct (has_edge og o e) eqn:Hedge.
  - apply Hwf in Hedge. destruct Hedge as (Ho & Hv & _). rewrite Ho, Hv.
    split; [discriminate | intros [_ [H|H]]; discriminate].
  - rewrite <- has_path_raise. destruct (has_path og o e) as [[|]|y].
    + destruct (1.0 <? total_indirect og o e)%float; [|split; discriminate].
      destruct (dict_get e ents); [split; discriminate | discriminate].
    + split; discriminate.
    + split; congruence.
Qed.

Lemma pass_outcome_none og ents pairs :
  snd (pass_outcome og ents pairs) = None <->
  forall o e, In (o, e) pairs -> forall x, pair_outcome_of og ents o e <> Fail x.
Proof.
  induction pairs as [|[o e] pairs IH]; cbn [pass_outcome].
  - split; [intros _ o e []|reflexivity].
  - destruct (pair_outcome_of og ents o e) as [|pct name|x] eqn:E; cbn [snd].
    + rewrite IH. split.
      * intros H o' e' [Heq|Hin]; [injection Heq as <- <-; rewrite E; discriminate|auto].
      * intros H o' e' Hin. apply H. right. exact Hin.
    + rewrite IH. split.
      * intros H o' e' [Heq|Hin]; [injection Heq as <- <-; rewrite E; discriminate|auto].
      * intros H o' e' Hin. apply H. right. exact Hin.
    + split; [discriminate|]. intros H. exfalso.
      apply (H o e (or_introl eq_refl) x). exact E.
Qed.

Lemma pass_outcome_some og ents pairs x :
  snd (pass_outcome og ents pairs) = Some x ->
  exists o e, In (o, e) pairs /\ pair_outcome_of og ents o e = Fail x.
Proof.
  induction pairs as [|[o e] pairs IH]; cbn [pass_outcome]; [discriminate|].
  destruct (pair_outcome_of og ents o e) as [|pct name|y] eqn:E; cbn [snd].
  - intros H. destruct (IH H) as (o' & e' & Hin & Hf). exists o', e'. split; [right|]; auto.
  - intros H. destruct (IH H) as (o' & e' & Hin & Hf). exists o', e'. split; [right|]; auto.
  - intros H. injection H as ->. exists o, e. split; [left; reflexivity | exact E].
Qed.

Lemma pass_outcome_ends og ents pairs :
  NoDup pairs ->
  NoDup (map ends (fst (pass_outcome og ents pairs))) /\
  forall p, In p (map ends (fst (pass_outcome og ents pairs))) -> In p pairs.
Proof.
  induction 1 as [|[o e] pairs Hnot Hnd [IH1 IH2]]; cbn [pass_outcome].
  - split; [constructor | intros p []].
  - destruct (pair_outcome_of og ents o e) as [|pct name|y]; cbn [fst map].
    + split; [exact IH1 | intros p Hp; right; auto].
    + split.
      * constructor; [|exact IH1]. intros Hin. apply Hnot. apply IH2. exact Hin.
      * intros p [<-|Hp]; [left; reflexivity | right; auto].
    + split; [constructor | intros p []].
Qed.

End PassOutcomeFacts.

Lemma pass_completion (st : extractor) :
  let og := ownership_graph_of (graph st) in
  (snd (calculate_indirect_ownership st) = None <->
   forall o e, In o (keys (owners st)) -> In e (keys (entities st)) ->
     has_node og o = true /\ has_node og e = true) /\
  (forall x, snd (calculate_indirect_ownership st) = Some x ->
     exists o e, x = NodeNotFound o e /\
       In o (keys (owners st)) /\ In e (keys (entities st)) /\
       (has_node og o = false \/ has_node og e = false)).
Proof.
  intros og. pose proof (og_wf_ownership_graph (graph st)) as Hwf. fold og in Hwf.
  destruct (calculate_outcome st) as (_ & _ & _ & Hsnd & _). cbn zeta in Hsnd.
  fold og in Hsnd. rewrite Hsnd. split.
  - rewrite PassOutcomeFacts.pass_outcome_none. unfold pairs_of. split.
    + intros H o e Ho He.
      assert (Hin : In (o, e) (list_prod (keys (owners st)) (keys (entities st))))
        by (apply in_prod_iff; auto).
      destruct (has_node og o) eqn:Eo, (has_node og e) eqn:Ee; try (split; reflexivity);
        exfalso; apply (H o e Hin (NodeNotFound o e));
        apply (PassOutcomeFacts.pair_outcome_fail og _ o e _ Hwf He); auto.
    + intros H o e Hin x Hf. apply in_prod_iff in Hin. destruct Hin as [Ho He].
      apply (PassOutcomeFacts.pair_outcome_fail og _ o e _ Hwf He) in Hf.
      destruct (H o e Ho He) as [A B]. destruct Hf as [_ [C|C]]; congruence.
  - intros x Hx. apply PassOutcomeFacts.pass_outcome_some in Hx.
    destruct Hx as (o & e & Hin & Hf). apply in_prod_iff in Hin. destruct Hin as [Ho He].
    apply (PassOutcomeFacts.pair_outcome_fail og _ o e _ Hwf He) in Hf.
    exists o, e. tauto.
Qed.

(** X6.  The pass completes without a logged error exactly when, for
    every owner key paired with every entity key, both keys are nodes of
    the ownership-only graph; an error that is logged is the
    [NodeNotFound] of a pair of an owner key and an entity key of which
    one is no such node. *)
Theorem pass_completes_iff_keys_are_nodes (st : extractor) :
  let og := ownership_graph_of (graph st) in
  (snd (calculate_indirect_ownership st) = None <->
   forall o e, In o (keys (owners st)) -> In e (keys (entities st)) ->
     has_node og o = true /\ has_node og e = true) /\
  (forall x, snd (calculate_indirect_ownership st) = Some x ->
     exists o e, x = NodeNotFound o e /\
       In o (keys (owners st)) /\ In e (keys (entities st)) /\
       (has_node og o = false \/ has_node og e = false)).
Proof. exact (pass_completion st). Qed.

(** X7.  When the pass completes, every pair of an owner key and an
    entity key without an edge in the ownership-only graph whose summed
    percentage exceeds 1.0 gets its relationship: none is left out. *)
Theorem material_stake_is_emitted (st : extractor) (o e : string) (i : info) :
  let og := ownership_graph_of (graph st) in
  snd (calculate_indirect_ownership st) = None ->
  In o (keys (owners st)) -> dict_get e (entities st) = Some i ->
  has_edge og o e = false ->
  (1.0 <? total_indirect og o e)%float = true ->
  In (indirect_relationship o e (total_indirect og o e) (i_name i)) (emitted st).
Proof.
  intros og Hdone Ho Hi Hedge Hgt.
  pose proof (og_wf_ownership_graph (graph st)) as Hwf. fold og in Hwf.
  assert (He : In e (keys (entities st))).
  { apply dict_mem_In. unfold dict_mem. rewrite Hi. reflexivity. }
  destruct (proj1 (proj1 (pass_completion st)) Hdone o e Ho He) as [No Ne].
  fold og in No, Ne.
  assert (Hpath : has_path og o e = Ok true).
  { destruct (String.eqb_spec o e) as [->|Hne].
    - unfold has_path. rewrite Ne. cbn [andb negb]. f_equal. apply mem_In.
      apply ReachFacts.reach_incl. left. reflexivity.
    - destruct (all_simple_paths og o e 3) as [|p l] eqn:E.
      + unfold total_indirect in Hgt. rewrite E in Hgt. discriminate Hgt.
      + assert (Hp : In p (all_simple_paths og o e 3)) by (rewrite E; left; reflexivity).
        apply all_simple_paths_spec in Hp; [|lia].
        apply (ReachFacts.has_path_simple_path og Hwf o e p); tauto. }
  destruct (calculate_outcome st) as (_ & _ & _ & Hsnd & _). cbn zeta in Hsnd.
  fold og in Hsnd. rewrite Hdone in Hsnd. symmetry in Hsnd.
  rewrite emitted_outcome. fold og. rewrite (pass_outcome_complete _ _ _ Hsnd).
  apply in_flat_map. exists (o, e). split.
  - apply in_prod_iff. auto.
  - unfold pair_emits, pair_outcome_of. cbn [fst snd].
    rewrite Hedge, Hpath, Hgt, Hi. left. reflexivity.
Qed.

Lemma material_stake_witness :
  In (indirect_relationship "a" "c" 30 "C") (emitted st_chain).
Proof.
  assert (E : total_indirect (ownership_graph_of (graph st_chain)) "a" "c" = 30%float)
    by (vm_compute; reflexivity).
  rewrite <- E.
  apply (material_stake_is_emitted st_chain "a" "c" (mk_info "c" "C" "company" None "" None)).
  - vm_compute. reflexivity.
  - vm_compute. tauto.
  - vm_compute. reflexivity.
  - vm_compute. reflexivity.
  - vm_compute. reflexivity.
Defined.

(** X8.  The pass adds at most one relationship per ordered pair: where
    the keys of the owners and the keys of the entities are distinct, no
    two added relationships have the same source and target. *)
Theorem one_indirect_relationship_per_pair (st : extractor) :
  NoDup (keys (owners st)) -> NoDup (keys (entities st)) ->
  NoDup (map ends (emitted st)).
Proof.
  intros Ho He. rewrite emitted_outcome.
  apply PassOutcomeFacts.pass_outcome_ends. apply NoDup_list_prod; assumption.
Qed.

Lemma one_indirect_relationship_witness :
  NoDup (map ends (emitted st_two_paths)).
Proof.
  apply one_indirect_relationship_per_pair;
    vm_compute; repeat constructor; cbn; intuition discriminate.
Defined.

(** ** The graph after the pass *)

Module PassGraphFacts.

Lemma for_each_pairs_graph og (Hwf : og_wf og) pairs : forall st,
  graph (snd (for_each pairs (pair_body og) st)) =
  add_edges (fst (pass_outcome og (entities st) pairs)) (graph st).
Proof.
  induction pairs as [|[o e] pairs IH]; intros st; [reflexivity|].
  rewrite (for_each_pair_cons og Hwf). cbn [pass_outcome].
  destruct (pair_outcome_of og (entities st) o e) as [|pct name|x].
  - apply IH.
  - rewrite IH. reflexivity.
  - reflexivity.
Qed.

Lemma ends_eqb (r : relationship) (u v : string) :
  (String.eqb u (source_id r) && String.eqb v (target_id r))%bool = true <->
  ends r = (u, v).
Proof.
  unfold ends. rewrite andb_true_iff, !String.eqb_eq. split.
  - intros [-> ->]. reflexivity.
  - intros E. injection E as -> ->. auto.
Qed.

Lemma get_edge_add_edges_other rs : forall g u v,
  (forall r, In r rs -> ends r <> (u, v)) ->
  get_edge (add_edges rs g) u v = get_edge g u v.
Proof.
  induction rs as [|r rs IH]; intros g u v H; [reflexivity|].
  unfold add_edges. cbn [fold_left]. fold (add_edges rs).
  rewrite IH by (intros r' Hr'; apply H; right; exact Hr').
  rewrite get_edge_add_edge.
  destruct (String.eqb u (source_id r) && String.eqb v (target_id r))%bool eqn:E;
    [|reflexivity].
  exfalso. apply (H r (or_introl eq_refl)). apply ends_eqb. exact E.
Qed.

Lemma rel_type_eqb_refl t : rel_type_eqb t t = true.
Proof. destruct t; reflexivity. Qed.

Lemma typed_edge_add_edges t rs : forall g u v,
  (forall r, In r rs -> r_type r = t) ->
  has_typed_edge g u v t = true \/ (exists r, In r rs /\ ends r = (u, v)) ->
  has_typed_edge (add_edges rs g) u v t = true.
Proof.
  induction rs as [|r rs IH]; intros g u v Ht H.
  - destruct H as [H|(r & [] & _)]. exact H.
  - unfold add_edges. cbn [fold_left]. fold (add_edges rs).
    apply IH; [intros r' Hr'; apply Ht; right; exact Hr'|].
    destruct (String.eqb u (source_id r) && String.eqb v (target_id r))%bool eqn:E.
    + left. unfold has_typed_edge. rewrite get_edge_add_edge, E.
      cbn [edata_update edge_attr e_type or_else].
      rewrite (Ht r (or_introl eq_refl)). apply rel_type_eqb_refl.
    + destruct H as [H|(r' & [<-|Hr'] & Hends)].
      * left. unfold has_typed_edge. rewrite get_edge_add_edge, E. exact H.
      * apply ends_eqb in Hends. congruence.
      * right. exists r'. auto.
Qed.

End PassGraphFacts.

Lemma pass_graph_outcome (st : extractor) :
  let st' := fst (calculate_indirect_ownership st) in
  owners st' = owners st /\ entities st' = entities st /\
  graph st' = add_edges (emitted st) (graph st) /\
  (forall r, In r (emitted st) ->
     has_typed_edge (graph st') (source_id r) (target_id r) indirect_owns = true) /\
  (forall u v, (forall r, In r (emitted st) -> ends r <> (u, v)) ->
     get_edge (graph st') u v = get_edge (graph st) u v).
Proof.
  cbn zeta. destruct (calculate_outcome st) as (_ & Ho & He & _ & _). cbn zeta in *.
  assert (G : graph (fst (calculate_indirect_ownership st)) =
              add_edges (emitted st) (graph st)).
  { rewrite emitted_outcome. unfold calculate_indirect_ownership.
    rewrite indirect_pass_pairs. fold (pairs_of st).
    pose proof (PassGraphFacts.for_each_pairs_graph _
                  (og_wf_ownership_graph (graph st)) (pairs_of st) st) as H.
    destruct (for_each (pairs_of st) (pair_body (ownership_graph_of (graph st))) st)
      as [[[]|x] st']; exact H. }
  split; [exact Ho|]. split; [exact He|]. split; [exact G|]. rewrite G. split.
  - intros r Hr. apply PassGraphFacts.typed_edge_add_edges.
    + intros r' Hr'. destruct (emitted_In st r' Hr') as (o & e & i & _ & _ & _ & _ & _ & ->).
      reflexivity.
    + right. exists r. auto.
  - intros u v H. apply PassGraphFacts.get_edge_add_edges_other. exact H.
Qed.

(** X9.  The pass leaves the owners and the entities as they are and
    changes the graph by one edge insertion per added relationship, in
    order and with the relationship's type, percentage and description:
    afterwards each added relationship's pair is joined by an edge of type
    [indirect_owns], and the edge of every other pair is as before. *)
Theorem pass_updates_graph_by_added_relationships (st : extractor) :
  let st' := fst (calculate_indirect_ownership st) in
  owners st' = owners st /\ entities st' = entities st /\
  graph st' = add_edges (emitted st) (graph st) /\
  (forall r, In r (emitted st) ->
     has_typed_edge (graph st') (source_id r) (target_id r) indirect_owns = true) /\
  (forall u v, (forall r, In r (emitted st) -> ends r <> (u, v)) ->
     get_edge (graph st') u v = get_edge (graph st) u v).
Proof. exact (pass_graph_outcome st). Qed.

(** ** The ownership-only graph against the graph *)

Module GraphWfFacts.

Lemma dict_set_In_inv {V : Type} (k x : string) (v y : V) (d : dict V) :
  In (x, y) (dict_set k v d) -> (x = k /\ y = v) \/ In (x, y) d.
Proof.
  induction d as [|[k0 v0] d IH]; cbn [dict_set].
  - intros [E|[]]. injection E as <- <-. auto.
  - destruct (String.eqb k k0).
    + intros [E|H]; [injection E as <- <-; auto | right; right; exact H].
    + intros [E|H]; [right; left; exact E|].
      destruct (IH H) as [A|A]; [auto | right; right; exact A].
Qed.

Lemma adj_NoDup g u : graph_wf g -> NoDup (keys (adj g u)).
Proof.
  intros [_ H]. unfold adj. destruct (dict_get u (_succ g)) as [nb|] eqn:E.
  - apply (H u). apply dict_get_In. exact E.
  - constructor.
Qed.

Lemma graph_wf_empty : graph_wf empty_graph.
Proof. split; [constructor | intros u nb []]. Qed.

Lemma graph_wf_ensure_node n g : graph_wf g -> graph_wf (ensure_node n g).
Proof.
  intros [H1 H2]. unfold ensure_node. destruct (has_node g n); [split; assumption|].
  split; cbn [_succ].
  - apply keys_set_NoDup. exact H1.
  - intros u nb Hin. apply dict_set_In_inv in Hin.
    destruct Hin as [[_ ->]|Hin]; [constructor | apply (H2 u); exact Hin].
Qed.

Lemma graph_wf_add_node n a g : graph_wf g -> graph_wf (add_node n a g).
Proof.
  intros H. apply (graph_wf_ensure_node n) in H. destruct H as [H1 H2].
  unfold add_node. split; cbn [_succ]; assumption.
Qed.

Lemma graph_wf_add_edge u v a g : graph_wf g -> graph_wf (add_edge u v a g).
Proof.
  intros H. apply (graph_wf_ensure_node u), (graph_wf_ensure_node v) in H.
  unfold add_edge. set (g2 := ensure_node v (ensure_node u g)) in *.
  pose proof (adj_NoDup g2 u H) as Ha. destruct H as [H1 H2].
  split; cbn [_succ].
  - apply keys_set_NoDup. exact H1.
  - intros x nb Hin. apply dict_set_In_inv in Hin.
    destruct Hin as [[_ ->]|Hin]; [apply keys_set_NoDup; exact Ha | apply (H2 x); exact Hin].
Qed.

Lemma in_edges g u v d :
  In (u, v, d) (edges g) <-> exists nb, In (u, nb) (_succ g) /\ In (v, d) nb.
Proof.
  unfold edges. rewrite in_flat_map. split.
  - intros ([u' nb] & Hin & H). cbn [fst snd] in H. apply in_map_iff in H.
    destruct H as ([v' d'] & E & Hin'). cbn [fst snd] in E. injection E as -> -> ->.
    exists nb. auto.
  - intros (nb & Hin & Hin'). exists (u, nb). split; [exact Hin|].
    cbn [fst snd]. apply in_map_iff. exists (v, d). auto.
Qed.

(** With distinct keys, the listed edges are the edges that can be looked up. *)
Lemma edges_get_edge g u v d :
  graph_wf g -> In (u, v, d) (edges g) <-> get_edge g u v = Some d.
Proof.
  intros [H1 H2]. rewrite in_edges. unfold get_edge, adj. split.
  - intros (nb & Hin & Hin'). rewrite (In_dict_get u nb _ H1 Hin).
    apply In_dict_get; [apply (H2 u); exact Hin | exact Hin'].
  - destruct (dict_get u (_succ g)) as [nb|] eqn:E; [|discriminate].
    intros Hd. exists nb. split; apply dict_get_In; assumption.
Qed.

(** Filtering a list of edges keeps their pairs distinct. *)
Lemma filter_keeps_pairs_distinct (keep : string * string * edata -> bool)
    (es : list (string * string * edata)) :
  NoDup (map fst es) -> NoDup (map fst (filter keep es)).
Proof.
  induction es as [|e es IH]; cbn [map filter]; intros Hnd; [exact Hnd|].
  inversion Hnd as [|? ? Hfresh Hrest]; subst. specialize (IH Hrest).
  destruct (keep e); [|exact IH]. cbn [map]. constructor; [|exact IH].
  intros Hin. apply Hfresh. apply in_map_iff in Hin. destruct Hin as (e' & E & He').
  apply filter_In in He'. apply in_map_iff. exists e'. tauto.
Qed.

(** With distinct keys, no ordered pair is listed twice. *)
Lemma edges_pairs_NoDup g : graph_wf g -> NoDup (map fst (edges g)).
Proof.
  intros Hwf. assert (H : forall x y d d',
            In (x, y, d) (edges g) -> In (x, y, d') (edges g) -> d = d').
  { intros x y d d' A B. apply (edges_get_edge g x y d Hwf) in A.
    apply (edges_get_edge g x y d' Hwf) in B. congruence. }
  destruct Hwf as [H1 H2]. unfold edges in *. revert H1 H2 H.
  generalize (_succ g) as s. induction s as [|[u nb] s IH]; intros H1 H2 H.
  - constructor.
  - cbn [flat_map fst snd map]. rewrite map_app. apply NoDup_app.
    + rewrite map_map. cbn [fst]. assert (Hn : NoDup (keys nb)).
      { apply (H2 u). left. reflexivity. }
      clear -Hn. unfold keys in Hn. induction nb as [|[v d] nb IHn]; [constructor|].
      cbn [map fst] in *. inversion Hn as [|? ? Hnot Hnd]; subst.
      constructor; [|auto]. intros Hin. apply Hnot. apply in_map_iff in Hin.
      destruct Hin as ([v' d'] & E & Hin). cbn [fst] in E. injection E as ->.
      apply in_map_iff. exists (v, d'). auto.
    + apply IH.
      * cbn [keys map fst] in H1. inversion H1; assumption.
      * intros u' nb' Hin. apply (H2 u'). right. exact Hin.
      * intros x y d d' A B. apply (H x y d d'); cbn [flat_map]; apply in_or_app; right;
          assumption.
    + intros [x y] A B. apply in_map_iff in A, B.
      destruct A as ([[x1 y1] d1] & E1 & A), B as ([[x2 y2] d2] & E2 & B).
      cbn [fst] in E1, E2. injection E1 as -> ->. injection E2 as -> ->.
      apply in_map_iff in A. destruct A as ([v d] & E & _). cbn [fst snd] in E.
      injection E as <- _ _.
      apply in_flat_map in B. destruct B as ([u' nb'] & Hin & B).
      apply in_map_iff in B. destruct B as ([v' d'] & E & _). cbn [fst snd] in E.
      injection E as <- _ _.
      cbn [keys map fst] in H1. inversion H1 as [|? ? Hnot _]; subst.
      apply Hnot. apply (in_map fst) in Hin. exact Hin.
Qed.

Lemma ownership_graph_fold g :
  ownership_graph_of g =
  fold_left ins (ownership_edges g) empty_graph.
Proof.
  unfold ownership_graph_of. generalize empty_graph as og.
  induction (ownership_edges g) as [|[[u v] d] l IH]; intros og; [reflexivity|].
  cbn [fold_left]. apply IH.
Qed.

Section Fold.

Lemma fold_has_edge l : forall g0 u v,
  has_edge (fold_left ins l g0) u v = true <->
  has_edge g0 u v = true \/ exists d, In (u, v, d) l.
Proof.
  induction l as [|[[a b] d] l IH]; intros g0 u v; cbn [fold_left].
  - split; [auto | intros [H|[d []]]; exact H].
  - rewrite IH. unfold ins. cbn [fst snd]. rewrite has_edge_add_edge, orb_true_iff.
    rewrite andb_true_iff, !String.eqb_eq. split.
    + intros [[[-> ->]|H]|[d' H]]; [right; exists d; left; reflexivity | auto |].
      right. exists d'. right. exact H.
    + intros [H|[d' [E|H]]]; [auto | injection E as -> -> ->; auto |].
      right. exists d'. exact H.
Qed.

Lemma fold_has_node l : forall g0 k,
  has_node (fold_left ins l g0) k = true <->
  has_node g0 k = true \/ exists u v d, In (u, v, d) l /\ (k = u \/ k = v).
Proof.
  induction l as [|[[a b] d] l IH]; intros g0 k; cbn [fold_left].
  - split; [auto | intros [H|(u & v & d & [] & _)]; exact H].
  - rewrite IH. unfold ins. cbn [fst snd]. rewrite has_node_add_edge, !orb_true_iff.
    rewrite !String.eqb_eq. split.
    + intros [[[->| ->]|H]|(u & v & d' & Hin & Hk)].
      * right. exists a, b, d. split; [left; reflexivity | auto].
      * right. exists a, b, d. split; [left; reflexivity | auto].
      * auto.
      * right. exists u, v, d'. split; [right; exact Hin | exact Hk].
    + intros [H|(u & v & d' & [E|Hin] & Hk)].
      * auto.
      * injection E as -> -> ->. left. tauto.
      * right. exists u, v, d'. auto.
Qed.

Lemma fold_get_edge_other l : forall g0 u v,
  (forall d, ~ In (u, v, d) l) ->
  get_edge (fold_left ins l g0) u v = get_edge g0 u v.
Proof.
  induction l as [|[[a b] d] l IH]; intros g0 u v H; cbn [fold_left]; [reflexivity|].
  rewrite IH by (intros d' Hd'; apply (H d'); right; exact Hd').
  unfold ins. cbn [fst snd]. rewrite get_edge_add_edge.
  destruct (String.eqb_spec u a) as [->|]; [|reflexivity].
  destruct (String.eqb_spec v b) as [->|]; [|reflexivity].
  exfalso. apply (H d). left. reflexivity.
Qed.

Lemma fold_percentage l : forall g0 u v d,
  NoDup (map fst l) -> In (u, v, d) l ->
  edge_percentage (fold_left ins l g0) u v = Ok (percentage_or_0 d).
Proof.
  induction l as [|[[a b] d0] l IH]; intros g0 u v d Hnd Hin; [destruct Hin|].
  cbn [fold_left]. cbn [map fst] in Hnd. inversion Hnd as [|? ? Hnot Hnd']; subst.
  destruct Hin as [E|Hin].
  - injection E as -> -> ->.
    assert (Hd : get_edge (fold_left ins l (ins g0 (u, v, d))) u v =
                 get_edge (ins g0 (u, v, d)) u v).
    { apply fold_get_edge_other. intros d' Hd'. apply Hnot.
      apply (in_map fst) in Hd'. exact Hd'. }
    unfold ins in Hd. cbn [fst snd] in Hd.
    rewrite get_edge_add_edge, !String.eqb_refl in Hd. cbn [andb] in Hd.
    apply (PercentFacts.edge_percentage_ok _ _ _ _ _ Hd). reflexivity.
  - apply IH; assumption.
Qed.
End Fold.

Lemma is_owns_iff d : is_owns d = true <-> e_type d = Some owns.
Proof.
  unfold is_owns. destruct (e_type d) as [[]|]; split; congruence.
Qed.

Lemma typed_owns g u v :
  has_typed_edge g u v owns = true <->
  exists d, get_edge g u v = Some d /\ e_type d = Some owns.
Proof.
  unfold has_typed_edge. destruct (get_edge g u v) as [d|].
  - destruct (e_type d) as [[]|] eqn:E; cbn [rel_type_eqb]; split;
      try discriminate; try (intros (d' & Hd & Ht); congruence).
    intros _. exists d. auto.
  - split; [discriminate | intros (d' & Hd & _); discriminate].
Qed.

Section Operations.
Context `{Builtins}.

Ltac wf_steps :=
  cbn [graph on_graph append_relationship set_entity set_owner];
  repeat first [apply graph_wf_add_edge | apply graph_wf_add_node]; assumption.

Lemma process_media_company_wf div o st :
  graph_wf (graph st) -> graph_wf (graph (process_media_company div o st)).
Proof.
  intros Hwf. unfold process_media_company. destruct (negb (c_link div)); [exact Hwf|].
  wf_steps.
Qed.

Lemma process_media_outlet_wf div o st :
  graph_wf (graph st) -> graph_wf (graph (process_media_outlet div o st)).
Proof.
  intros Hwf. unfold process_media_outlet. destruct (negb (o_link div)); [exact Hwf|].
  wf_steps.
Qed.

Lemma process_family_member_wf text o st :
  graph_wf (graph st) -> graph_wf (graph (process_family_member text o st)).
Proof.
  intros Hwf. unfold process_family_member.
  destruct (String.eqb (f_name text) "" || Nat.ltb (py_len (f_name text)) 3)%bool;
    [exact Hwf|].
  cbn zeta. destruct (String.eqb (Normalizer.sanitize_id (f_name text)) o); [exact Hwf|].
  destruct (negb (dict_mem (Normalizer.sanitize_id (f_name text)) (owners st)) &&
            negb (dict_mem (Normalizer.sanitize_id (f_name text)) (entities st)))%bool;
    wf_steps.
Qed.

Lemma process_html_file_wf pg st :
  graph_wf (graph st) -> graph_wf (graph (process_html_file pg st)).
Proof.
  intros Hwf. unfold process_html_file. cbn zeta.
  apply (fold_left_invariant _ (fun st => graph_wf (graph st)));
    [intros; apply process_family_member_wf; assumption|].
  apply (fold_left_invariant _ (fun st => graph_wf (graph st)));
    [intros; apply process_media_outlet_wf; assumption|].
  apply (fold_left_invariant _ (fun st => graph_wf (graph st)));
    [intros; apply process_media_company_wf; assumption|].
  wf_steps.
Qed.

Lemma direct_phase_wf pages : graph_wf (graph (direct_phase pages)).
Proof.
  unfold direct_phase.
  apply (fold_left_invariant _ (fun st => graph_wf (graph st)));
    [intros; apply process_html_file_wf; assumption | apply graph_wf_empty].
Qed.
End Operations.

End GraphWfFacts.

Import GraphWfFacts.

Lemma ownership_graph_spec (g : DiGraph) :
  graph_wf g ->
  let og := ownership_graph_of g in
  (forall u v, has_edge og u v = true <-> has_typed_edge g u v owns = true) /\
  (forall u v d, get_edge g u v = Some d -> e_type d = Some owns ->
     edge_percentage og u v = Ok (percentage_or_0 d)) /\
  (forall k, has_node og k = true <->
     exists u v, has_typed_edge g u v owns = true /\ (k = u \/ k = v)).
Proof.
  intros Hwf og. subst og. rewrite ownership_graph_fold.
  assert (Hin : forall u v d, In (u, v, d) (ownership_edges g) <->
                  get_edge g u v = Some d /\ e_type d = Some owns).
  { intros u v d. unfold ownership_edges. rewrite filter_In. cbn [snd].
    rewrite (edges_get_edge g u v d Hwf), is_owns_iff. tauto. }
  split; [|split].
  - intros u v. rewrite fold_has_edge, typed_owns. split.
    + intros [H|[d H]]; [discriminate H|]. exists d. apply Hin. exact H.
    + intros (d & H). right. exists d. apply Hin. exact H.
  - intros u v d Hd Ht. apply fold_percentage.
    + unfold ownership_edges. apply filter_keeps_pairs_distinct.
      apply edges_pairs_NoDup. exact Hwf.
    + apply Hin. auto.
  - intros k. rewrite fold_has_node. split.
    + intros [H|(u & v & d & H & Hk)]; [discriminate H|].
      exists u, v. split; [|exact Hk]. apply typed_owns. exists d. apply Hin. exact H.
    + intros (u & v & Ht & Hk). apply typed_owns in Ht. destruct Ht as (d & Hd).
      right. exists u, v, d. split; [apply Hin; exact Hd | exact Hk].
Qed.

(** X10.  For a graph whose dictionaries have distinct keys, the
    ownership-only graph built by the pass has an edge from [u] to [v]
    exactly when the graph's edge from [u] to [v] has type [owns]; the
    edge then carries that edge's percentage, or 0 when it has none; and
    its nodes are the end points of the edges of type [owns]. *)
Theorem ownership_graph_mirrors_owns_edges (g : DiGraph) :
  graph_wf g ->
  let og := ownership_graph_of g in
  (forall u v, has_edge og u v = true <-> has_typed_edge g u v owns = true) /\
  (forall u v d, get_edge g u v = Some d -> e_type d = Some owns ->
     edge_percentage og u v = Ok (percentage_or_0 d)) /\
  (forall k, has_node og k = true <->
     exists u v, has_typed_edge g u v owns = true /\ (k = u \/ k = v)).
Proof. exact (ownership_graph_spec g). Qed.

Lemma ownership_graph_mirrors_witness :
  graph_wf (graph st_chain) /\
  (has_edge (ownership_graph_of (graph st_chain)) "a" "b" = true <->
   has_typed_edge (graph st_chain) "a" "b" owns = true).
Proof.
  assert (Hwf : graph_wf (graph st_chain)) by (apply direct_phase_wf).
  split; [exact Hwf|].
  apply (proj1 (ownership_graph_mirrors_owns_edges (graph st_chain) Hwf)).
Defined.

(** ** The registry *)

Module RegistryFacts.

Lemma registry_wf_nil : registry_wf [].
Proof. split; [constructor | intros k i []]. Qed.

Lemma registry_wf_set (d : dict info) (k : string) (i : info) :
  registry_wf d -> i_id i = k -> k = Normalizer.sanitize_id (i_name i) ->
  registry_wf (dict_set k i d).
Proof.
  intros [H1 H2] Hid Hk. split; [apply keys_set_NoDup; exact H1|].
  intros k' i' Hin. apply dict_set_In_inv in Hin.
  destruct Hin as [[-> ->]|Hin]; [auto | apply H2; exact Hin].
Qed.

Lemma dict_set_absent {V : Type} (k : string) (v : V) (d : dict V) :
  dict_mem k d = false -> dict_set k v d = d ++ [(k, v)].
Proof.
  unfold dict_mem. induction d as [|[k0 v0] d IH]; cbn [dict_get dict_set app];
    [reflexivity|].
  destruct (String.eqb k k0); [discriminate|]. intros H. rewrite (IH H). reflexivity.
Qed.

Section Operations.
Context `{Builtins}.

Lemma process_media_company_reg div o st :
  registries_wf st -> registries_wf (process_media_company div o st).
Proof.
  intros [Ho He]. unfold process_media_company. destruct (negb (c_link div)); [split; assumption|].
  split; cbn [owners entities on_graph append_relationship set_entity]; [exact Ho|].
  apply registry_wf_set; [exact He | reflexivity | reflexivity].
Qed.

Lemma process_media_outlet_reg div o st :
  registries_wf st -> registries_wf (process_media_outlet div o st).
Proof.
  intros [Ho He]. unfold process_media_outlet. destruct (negb (o_link div)); [split; assumption|].
  split; cbn [owners entities on_graph append_relationship set_entity]; [exact Ho|].
  apply registry_wf_set; [exact He | reflexivity | reflexivity].
Qed.

Lemma process_family_member_reg text o st :
  registries_wf st -> registries_wf (process_family_member text o st).
Proof.
  intros [Ho He]. unfold process_family_member.
  destruct (String.eqb (f_name text) "" || Nat.ltb (py_len (f_name text)) 3)%bool;
    [split; assumption|].
  cbn zeta. destruct (String.eqb (Normalizer.sanitize_id (f_name text)) o); [split; assumption|].
  destruct (negb (dict_mem (Normalizer.sanitize_id (f_name text)) (owners st)) &&
            negb (dict_mem (Normalizer.sanitize_id (f_name text)) (entities st)))%bool;
    split; cbn [owners entities on_graph append_relationship set_owner]; try assumption.
  apply registry_wf_set; [exact Ho | reflexivity | reflexivity].
Qed.

Lemma process_html_file_reg pg st :
  registries_wf st -> registries_wf (process_html_file pg st).
Proof.
  intros [Ho He]. unfold process_html_file. cbn zeta.
  apply (fold_left_invariant _ registries_wf);
    [intros; apply process_family_member_reg; assumption|].
  apply (fold_left_invariant _ registries_wf);
    [intros; apply process_media_outlet_reg; assumption|].
  apply (fold_left_invariant _ registries_wf);
    [intros; apply process_media_company_reg; assumption|].
  split; cbn [owners entities on_graph set_owner]; [|exact He].
  apply registry_wf_set; [exact Ho | reflexivity | reflexivity].
Qed.

Lemma direct_phase_reg pages : registries_wf (direct_phase pages).
Proof.
  unfold direct_phase. apply (fold_left_invariant _ registries_wf).
  - intros; apply process_html_file_reg; assumption.
  - split; apply registry_wf_nil.
Qed.
End Operations.

End RegistryFacts.

Import RegistryFacts.

Lemma registry_wf_ids (d : dict info) :
  registry_wf d ->
  map i_id (values d) = keys d /\
  forall i, In i (values d) -> i_id i = Normalizer.sanitize_id (i_name i).
Proof.
  intros [_ H]. split.
  - unfold values, keys. rewrite map_map. apply map_ext_in.
    intros [k i] Hin. cbn [fst snd]. apply (H k i Hin).
  - intros i Hi. unfold values in Hi. apply in_map_iff in Hi.
    destruct Hi as ([k i'] & E & Hin). cbn [snd] in E. subst i'.
    destruct (H k i Hin) as [A B]. congruence.
Qed.

(** X11.  After a full run the owner table and the entity table have no
    two rows with the same identifier, and the identifier of every row is
    the identifier of the row's name. *)
Theorem tables_have_unique_normalised_ids `{Builtins} (pages : list page) :
  let net := extract_all_data pages in
  NoDup (map i_id (net_owners net)) /\
  NoDup (map i_id (net_entities net)) /\
  (forall i, In i (net_owners net ++ net_entities net) ->
     i_id i = Normalizer.sanitize_id (i_name i)).
Proof.
  cbn zeta. unfold extract_all_data. cbn [build_network net_owners net_entities].
  destruct (calculate_outcome (direct_phase pages)) as (_ & Eo & Ee & _).
  cbn zeta in Eo, Ee. rewrite Eo, Ee.
  destruct (direct_phase_reg pages) as [Ho He].
  destruct (registry_wf_ids _ Ho) as [A1 A2], (registry_wf_ids _ He) as [B1 B2].
  rewrite A1, B1. split; [apply Ho|]. split; [apply He|].
  intros i Hi. apply in_app_or in Hi. destruct Hi; auto.
Qed.

(** X12.  Processing a family member never changes the entities and never
    replaces an owner: every owner key keeps its entry, and the only key
    that can be added is the identifier of the family member's name, when
    it was neither an owner nor an entity. *)
Theorem family_member_keeps_registry `{Builtins} (text : family_text) (o : string)
    (st : extractor) :
  let st' := process_family_member text o st in
  entities st' = entities st /\
  (forall k, In k (keys (owners st)) ->
     dict_get k (owners st') = dict_get k (owners st)) /\
  (forall k, In k (keys (owners st')) ->
     In k (keys (owners st)) \/
     (k = Normalizer.sanitize_id (f_name text) /\ ~ registered st k)).
Proof.
  cbn zeta. unfold process_family_member.
  destruct (String.eqb (f_name text) "" || Nat.ltb (py_len (f_name text)) 3)%bool;
    [auto|].
  cbn zeta. set (fid := Normalizer.sanitize_id (f_name text)).
  destruct (String.eqb fid o); [auto|].
  destruct (dict_mem fid (owners st)) eqn:Eo; cbn [negb andb];
    [cbn [owners entities on_graph append_relationship]; auto|].
  destruct (dict_mem fid (entities st)) eqn:Ee; cbn [negb andb];
    cbn [owners entities on_graph append_relationship set_owner]; [auto|].
  split; [reflexivity|]. split.
  - intros k Hk. rewrite dict_get_set. destruct (String.eqb_spec k fid) as [->|]; [|reflexivity].
    apply dict_mem_In in Hk. congruence.
  - intros k Hk. apply keys_set_In in Hk. destruct Hk as [->|Hk]; [right|left; exact Hk].
    split; [reflexivity|]. unfold registered. rewrite <- !dict_mem_In, Eo, Ee.
    intros [A|A]; discriminate A.
Qed.

(** X13.  Processing a company block with a link stores the company under
    the identifier of its name, replacing whatever entity was stored
    under that identifier (which keeps its position); the other entities
    and the owners are untouched. *)
Theorem company_listing_upserts_entity `{Builtins} (div : company_div) (o : string)
    (st : extractor) :
  c_link div = true ->
  let name := match c_name div with Some n => n | None => "Unknown Company" end in
  let cid := Normalizer.sanitize_id name in
  let st' := process_media_company div o st in
  dict_get cid (entities st') =
    Some (mk_info cid name "company" None (c_image div) None) /\
  keys (entities st') =
    (if dict_mem cid (entities st) then keys (entities st)
     else keys (entities st) ++ [cid]) /\
  (forall k, k <> cid -> dict_get k (entities st') = dict_get k (entities st)) /\
  owners st' = owners st.
Proof.
  intros Hl. cbn zeta. rewrite entities_process_media_company, Hl. cbn zeta.
  rewrite dict_get_set, String.eqb_refl, keys_set.
  split; [reflexivity|]. split; [reflexivity|]. split.
  - intros k Hk. rewrite dict_get_set.
    destruct (String.eqb_spec k (Normalizer.sanitize_id
               match c_name div with Some n => n | None => "Unknown Company" end));
      [congruence | reflexivity].
  - unfold process_media_company. rewrite Hl. reflexivity.
Qed.

Lemma company_listing_witness :
  dict_get "b" (entities (process_media_company (company "B" 60) "a" init)) =
    Some (mk_info "b" "B" "company" None "" None).
Proof.
  exact (proj1 (company_listing_upserts_entity (company "B" 60) "a" init eq_refl)).
Defined.

(** ** The graph as a mirror of the stored data *)

Module MirrorFacts.

Lemma has_edge_add_node n a g u v : has_edge (add_node n a g) u v = has_edge g u v.
Proof. unfold has_edge. rewrite adj_add_node. reflexivity. Qed.

Lemma mirrored_relate st1 o t r attr :
  mirrored st1 -> registered st1 o -> registered st1 t ->
  source_id r = o -> target_id r = t ->
  mirrored (on_graph (add_edge o t attr) (append_relationship r st1)).
Proof.
  intros [Hn He] Ho Ht Es Et. split; cbn [on_graph append_relationship graph relationships].
  - intros k. rewrite has_node_add_edge, !orb_true_iff, !String.eqb_eq.
    intros [[->| ->]|Hk]; [exact Ho | exact Ht | apply Hn; exact Hk].
  - apply Forall_app. split.
    + eapply Forall_impl; [|exact He]. intros x Hx. cbn beta.
      rewrite has_edge_add_edge, Hx. apply orb_true_r.
    + constructor; [|constructor]. rewrite has_edge_add_edge, Es, Et, !String.eqb_refl.
      reflexivity.
Qed.

Lemma mirrored_register_entity st k i n :
  mirrored st ->
  let st1 := on_graph (add_node k n) (set_entity k i st) in
  mirrored st1 /\ (forall x, registered st x -> registered st1 x) /\ registered st1 k.
Proof.
  intros [Hn He] st1.
  assert (Hr : forall x, registered st1 x <-> x = k \/ registered st x).
  { intros x. unfold registered, st1. cbn [on_graph set_entity owners entities].
    rewrite keys_set_In. tauto. }
  split; [split|split].
  - intros x. unfold st1. cbn [on_graph graph set_entity].
    rewrite has_node_add_node, orb_true_iff, String.eqb_eq. intros [->|Hx]; apply Hr; auto.
  - unfold st1. cbn [on_graph graph set_entity relationships].
    eapply Forall_impl; [|exact He]. intros r Hr'. cbn beta.
    rewrite has_edge_add_node. exact Hr'.
  - intros x Hx. apply Hr. auto.
  - apply Hr. auto.
Qed.

Lemma mirrored_register_owner st k i n :
  mirrored st ->
  let st1 := on_graph (add_node k n) (set_owner k i st) in
  mirrored st1 /\ (forall x, registered st x -> registered st1 x) /\ registered st1 k.
Proof.
  intros [Hn He] st1.
  assert (Hr : forall x, registered st1 x <-> x = k \/ registered st x).
  { intros x. unfold registered, st1. cbn [on_graph set_owner owners entities].
    rewrite keys_set_In. tauto. }
  split; [split|split].
  - intros x. unfold st1. cbn [on_graph graph set_owner].
    rewrite has_node_add_node, orb_true_iff, String.eqb_eq. intros [->|Hx]; apply Hr; auto.
  - unfold st1. cbn [on_graph graph set_owner relationships].
    eapply Forall_impl; [|exact He]. intros r Hr'. cbn beta.
    rewrite has_edge_add_node. exact Hr'.
  - intros x Hx. apply Hr. auto.
  - apply Hr. auto.
Qed.

Section Operations.
Context `{Builtins}.

Lemma process_media_company_mirrored div o st :
  mirrored st -> registered st o ->
  mirrored (process_media_company div o st) /\
  registered (process_media_company div o st) o.
Proof.
  intros Hm Ho. unfold process_media_company. destruct (negb (c_link div)); [auto|].
  cbn zeta.
  match goal with
  | |- context [append_relationship ?r (on_graph (add_node ?k ?n) (set_entity ?k ?i st))] =>
      destruct (mirrored_register_entity st k i n Hm) as (A & B & C);
      split; [apply (mirrored_relate _ o k r); auto | apply B; exact Ho]
  end.
Qed.

Lemma process_media_outlet_mirrored div o st :
  mirrored st -> registered st o ->
  mirrored (process_media_outlet div o st) /\
  registered (process_media_outlet div o st) o.
Proof.
  intros Hm Ho. unfold process_media_outlet. destruct (negb (o_link div)); [auto|].
  cbn zeta.
  match goal with
  | |- context [append_relationship ?r (on_graph (add_node ?k ?n) (set_entity ?k ?i st))] =>
      destruct (mirrored_register_entity st k i n Hm) as (A & B & C);
      split; [apply (mirrored_relate _ o k r); auto | apply B; exact Ho]
  end.
Qed.

Lemma process_family_member_mirrored text o st :
  mirrored st -> registered st o ->
  mirrored (process_family_member text o st) /\
  registered (process_family_member text o st) o.
Proof.
  intros Hm Ho. unfold process_family_member.
  destruct (String.eqb (f_name text) "" || Nat.ltb (py_len (f_name text)) 3)%bool; [auto|].
  cbn zeta. set (fid := Normalizer.sanitize_id (f_name text)).
  destruct (String.eqb fid o); [auto|].
  destruct (negb (dict_mem fid (owners st)) && negb (dict_mem fid (entities st)))%bool eqn:E.
  - match goal with
    | |- context [append_relationship ?r (on_graph (add_node fid ?n) (set_owner fid ?i st))] =>
        destruct (mirrored_register_owner st fid i n Hm) as (A & B & C);
        split; [apply (mirrored_relate _ o fid r); auto | apply B; exact Ho]
    end.
  - assert (K : registered st fid).
    { unfold registered. rewrite <- !dict_mem_In.
      destruct (dict_mem fid (owners st)); [left; reflexivity|].
      destruct (dict_mem fid (entities st)); [right; reflexivity|discriminate]. }
    split; [|exact Ho].
    match goal with
    | |- context [append_relationship ?r st] => apply (mirrored_relate st o fid r); auto
    end.
Qed.

Lemma fold_mirrored {A : Type} (f : extractor -> A -> extractor) (o : string) (l : list A) :
  (forall st x, mirrored st -> registered st o -> mirrored (f st x) /\ registered (f st x) o) ->
  forall st, mirrored st -> registered st o ->
    mirrored (fold_left f l st) /\ registered (fold_left f l st) o.
Proof.
  intros Hf. induction l as [|x l IH]; intros st Hm Ho; cbn [fold_left]; [auto|].
  destruct (Hf st x Hm Ho) as [Hm' Ho']. apply IH; assumption.
Qed.

Lemma process_html_file_mirrored pg st :
  mirrored st -> mirrored (process_html_file pg st).
Proof.
  intros Hm. unfold process_html_file. cbn zeta.
  set (oid := Normalizer.sanitize_id (p_owner_name pg)).
  match goal with
  | |- context [on_graph (add_node oid ?n) (set_owner oid ?i st)] =>
      destruct (mirrored_register_owner st oid i n Hm) as (A & _ & C);
      set (st0 := on_graph (add_node oid n) (set_owner oid i st)) in *
  end.
  destruct (fold_mirrored (fun st div => process_media_company div oid st) oid (p_companies pg)
              (fun st x => process_media_company_mirrored x oid st) st0 A C) as [A1 C1].
  destruct (fold_mirrored (fun st div => process_media_outlet div oid st) oid (p_outlets pg)
              (fun st x => process_media_outlet_mirrored x oid st) _ A1 C1) as [A2 C2].
  apply (fold_mirrored (fun st text => process_family_member text oid st) oid (p_family pg)
           (fun st x => process_family_member_mirrored x oid st) _ A2 C2).
Qed.

Lemma direct_phase_mirrored pages : mirrored (direct_phase pages).
Proof.
  unfold direct_phase. apply (fold_left_invariant _ mirrored).
  - intros; apply process_html_file_mirrored; assumption.
  - split; [intros k Hk; discriminate Hk | constructor].
Qed.
End Operations.

Lemma has_node_add_edges rs : forall g k,
  has_node (add_edges rs g) k = true ->
  has_node g k = true \/ exists r, In r rs /\ (k = source_id r \/ k = target_id r).
Proof.
  induction rs as [|r rs IH]; intros g k; [auto|].
  unfold add_edges. cbn [fold_left]. fold (add_edges rs). intros Hk.
  apply IH in Hk. destruct Hk as [Hk|(r' & Hin & Hk)].
  - rewrite has_node_add_edge, !orb_true_iff, !String.eqb_eq in Hk.
    destruct Hk as [[->| ->]|Hk]; [right; exists r; split; [left|]; auto ..| auto].
  - right. exists r'. split; [right|]; auto.
Qed.

Lemma has_edge_add_edges rs : forall g u v,
  has_edge g u v = true \/ (exists r, In r rs /\ ends r = (u, v)) ->
  has_edge (add_edges rs g) u v = true.
Proof.
  induction rs as [|r rs IH]; intros g u v H.
  - destruct H as [H|(r & [] & _)]. exact H.
  - unfold add_edges. cbn [fold_left]. fold (add_edges rs). apply IH.
    rewrite has_edge_add_edge.
    destruct H as [H|(r' & [<-|Hin] & Hends)].
    + left. rewrite H. apply orb_true_r.
    + left. apply PassGraphFacts.ends_eqb in Hends. rewrite Hends. reflexivity.
    + right. exists r'. auto.
Qed.

Lemma graph_wf_add_edges rs : forall g, graph_wf g -> graph_wf (add_edges rs g).
Proof.
  induction rs as [|r rs IH]; intros g Hwf; [exact Hwf|].
  unfold add_edges. cbn [fold_left]. fold (add_edges rs).
  apply IH. apply graph_wf_add_edge. exact Hwf.
Qed.

End MirrorFacts.

Import MirrorFacts.

(** X14.  After the direct phase and after the pass, the nodes of the
    graph are exactly the keys of the owners and of the entities, and
    every stored relationship has an edge in the graph from its source to
    its target. *)
Theorem graph_mirrors_registry_and_relationships `{Builtins} (pages : list page) :
  let st := direct_phase pages in
  let st' := fst (calculate_indirect_ownership st) in
  (forall k, has_node (graph st) k = true <-> registered st k) /\
  Forall (fun r => has_edge (graph st) (source_id r) (target_id r) = true)
    (relationships st) /\
  (forall k, has_node (graph st') k = true <-> registered st' k) /\
  Forall (fun r => has_edge (graph st') (source_id r) (target_id r) = true)
    (relationships st').
Proof.
  cbn zeta. set (st := direct_phase pages).
  destruct (direct_phase_mirrored pages) as [Hn He]. fold st in Hn, He.
  destruct (direct_phase_ok pages) as [[Hreg Hrels] _]. fold st in Hreg, Hrels.
  destruct (pass_graph_outcome st) as (Eo & Ee & Eg & _).
  cbn zeta in Eo, Ee, Eg.
  assert (Er : relationships (fst (calculate_indirect_ownership st)) =
               relationships st ++ emitted st).
  { rewrite emitted_outcome. apply calculate_outcome. }
  pose proof (emitted_rel_ok st Hreg) as Hem.
  split; [intros k; split; [apply Hn | apply Hreg]|]. split; [exact He|]. split.
  - intros k. unfold registered. rewrite Eo, Ee, Eg. fold (registered st k). split.
    + intros Hk. apply has_node_add_edges in Hk.
      destruct Hk as [Hk|(r & Hr & Hk)]; [apply Hn; exact Hk|].
      rewrite Forall_forall in Hem. destruct (Hem r Hr) as (A & B & _).
      destruct Hk as [->| ->]; assumption.
    + intros Hk. destruct (calculate_outcome st) as (_ & _ & _ & _ & Hmono).
      cbn zeta in Hmono. rewrite <- Eg. apply Hmono. apply Hreg. exact Hk.
  - rewrite Er, Eg. apply Forall_app. split.
    + eapply Forall_impl; [|exact He]. intros r Hr. cbn beta.
      apply has_edge_add_edges. left. exact Hr.
    + apply Forall_forall. intros r Hr. apply has_edge_add_edges. right.
      exists r. split; [exact Hr | reflexivity].
Qed.

Lemma typed_edge_unique g u v t t' :
  has_typed_edge g u v t = true -> t' <> t -> has_typed_edge g u v t' = false.
Proof.
  unfold has_typed_edge. destruct (get_edge g u v) as [d|]; [|discriminate].
  destruct (e_type d) as [t0|]; [|discriminate].
  destruct t, t0, t'; cbn; congruence.
Qed.

(** X15.  The pass does not disturb the ownership edges: for a graph whose
    dictionaries have distinct keys, the ownership-only graph of the
    graph after the pass has the same edges, with the same percentages,
    as the one the pass worked on.  Relationships of type
    [indirect_owns] never become hops. *)
Theorem pass_keeps_ownership_edges (st : extractor) :
  graph_wf (graph st) ->
  let og := ownership_graph_of (graph st) in
  let og' := ownership_graph_of (graph (fst (calculate_indirect_ownership st))) in
  forall u v,
    has_edge og' u v = has_edge og u v /\
    (has_edge og u v = true -> edge_percentage og' u v = edge_percentage og u v).
Proof.
  intros Hwf og og' u v.
  destruct (pass_graph_outcome st) as (_ & _ & Eg & Hty & Hother).
  cbn zeta in Eg, Hty, Hother.
  set (g := graph st) in *. set (g' := graph (fst (calculate_indirect_ownership st))) in *.
  assert (Hwf' : graph_wf g') by (rewrite Eg; apply graph_wf_add_edges; exact Hwf).
  destruct (ownership_graph_spec g Hwf) as (A1 & A2 & _).
  destruct (ownership_graph_spec g' Hwf') as (B1 & B2 & _).
  cbn zeta in A1, A2, B1, B2. fold og in A1, A2. fold og' in B1, B2.
  assert (Hcase : (has_typed_edge g' u v owns = false /\ has_edge og u v = false) \/
                  get_edge g' u v = get_edge g u v).
  { destruct (existsb (between u v) (emitted st)) eqn:Ex.
    - left. apply existsb_exists in Ex. destruct Ex as (r & Hr & Hb).
      unfold between in Hb. apply andb_true_iff in Hb. destruct Hb as [Hs Ht].
      apply String.eqb_eq in Hs, Ht. subst u v. split.
      + apply (typed_edge_unique _ _ _ indirect_owns); [apply Hty; exact Hr | discriminate].
      + destruct (emitted_In st r Hr) as (o & e & i & _ & _ & He & _ & _ & ->).
        exact He.
    - right. apply Hother. intros r Hr Hends.
      assert (Hb : between u v r = true).
      { unfold between. unfold ends in Hends. injection Hends as -> ->.
        rewrite !String.eqb_refl. reflexivity. }
      assert (Hex : existsb (between u v) (emitted st) = true)
        by (apply existsb_exists; exists r; auto).
      congruence. }
  destruct Hcase as [[Hno' Hno]|Hsame].
  - split.
    + rewrite Hno. destruct (has_edge og' u v) eqn:E; [|reflexivity].
      apply B1 in E. congruence.
    + rewrite Hno. discriminate.
  - assert (Hty' : has_typed_edge g' u v owns = has_typed_edge g u v owns)
      by (unfold has_typed_edge; rewrite Hsame; reflexivity).
    split.
    + apply Bool.eq_iff_eq_true. rewrite A1, B1, Hty'. tauto.
    + intros He. apply A1, typed_owns in He. destruct He as (d & Hd & Ht).
      rewrite (A2 u v d Hd Ht). apply B2; [rewrite Hsame; exact Hd | exact Ht].
Qed.

Lemma pass_keeps_ownership_edges_witness :
  has_edge (ownership_graph_of (graph (fst (calculate_indirect_ownership st_chain))))
    "a" "c" = false.
Proof.
  destruct (pass_keeps_ownership_edges st_chain (direct_phase_wf _) "a" "c") as [E _].
  rewrite E. vm_compute. reflexivity.
Defined.

Lemma relationship_type_not_owns `{Builtins} d : relationship_type_of d <> owns.
Proof.
  unfold relationship_type_of.
  repeat match goal with |- context [if ?b then _ else _] => destruct b end;
    discriminate.
Qed.

(** X16.  A family relation replaces an ownership edge.  When a family
    member is accepted (a name of at least three characters whose
    identifier is not the owner's), the edge from the owner to the family
    member's identifier has the family relation's type afterwards, and
    not the type [owns], even if the owner held an entity of that
    identifier; a percentage the edge had stays on it; and the
    ownership-only graph has no edge for the pair. *)
Theorem family_relation_replaces_ownership_edge `{Builtins} (text : family_text)
    (o : string) (st : extractor) :
  let fid := Normalizer.sanitize_id (f_name text) in
  let st' := process_family_member text o st in
  f_name text <> "" -> 3 <= py_len (f_name text) -> fid <> o ->
  has_typed_edge (graph st') o fid (relationship_type_of (f_description text)) = true /\
  has_typed_edge (graph st') o fid owns = false /\
  (forall d, get_edge (graph st) o fid = Some d ->
     exists d', get_edge (graph st') o fid = Some d' /\
                e_percentage d' = e_percentage d) /\
  (graph_wf (graph st) -> has_edge (ownership_graph_of (graph st')) o fid = false).
Proof.
  intros fid st' Hname Hlen Hne.
  assert (Hg : exists g1, graph st' =
            add_edge o fid (mk_edata (Some (relationship_type_of (f_description text)))
                              None (Some (f_description text))) g1 /\
            (forall u v, get_edge g1 u v = get_edge (graph st) u v) /\
            (graph_wf (graph st) -> graph_wf g1)).
  { unfold st', process_family_member.
    destruct (String.eqb_spec (f_name text) "") as [E|_]; [congruence|].
    destruct (Nat.ltb_spec (py_len (f_name text)) 3) as [E|_]; [lia|].
    cbn [orb]. cbn zeta. fold fid.
    destruct (String.eqb_spec fid o) as [E|_]; [congruence|].
    destruct (negb (dict_mem fid (owners st)) && negb (dict_mem fid (entities st)))%bool.
    - eexists. split; [reflexivity|]. cbn [graph on_graph append_relationship set_owner].
      split.
      + intros u v. unfold get_edge. rewrite adj_add_node. reflexivity.
      + apply graph_wf_add_node.
    - eexists. split; [reflexivity|]. cbn [graph on_graph append_relationship]. auto. }
  destruct Hg as (g1 & Eg & Hsame & Hwf1).
  assert (Hty : has_typed_edge (graph st') o fid
                  (relationship_type_of (f_description text)) = true).
  { rewrite Eg. unfold has_typed_edge. rewrite get_edge_add_edge, !String.eqb_refl.
    cbn [andb edata_update e_type or_else]. apply PassGraphFacts.rel_type_eqb_refl. }
  split; [exact Hty|]. split; [|split].
  - apply (typed_edge_unique _ _ _ _ _ Hty). intros E. symmetry in E.
    exact (relationship_type_not_owns _ E).
  - intros d Hd. rewrite Eg, get_edge_add_edge, !String.eqb_refl, Hsame, Hd.
    eexists. split; [reflexivity|]. cbn [edata_update e_percentage or_else]. reflexivity.
  - intros Hwf. assert (Hwf' : graph_wf (graph st')).
    { rewrite Eg. apply graph_wf_add_edge. auto. }
    destruct (has_edge (ownership_graph_of (graph st')) o fid) eqn:E; [|reflexivity].
    apply (ownership_graph_spec _ Hwf') in E.
    rewrite (typed_edge_unique _ _ _ _ owns Hty) in E; [discriminate|].
    intros E'. symmetry in E'. exact (relationship_type_not_owns _ E').
Qed.

Lemma family_relation_witness :
  has_typed_edge (graph st_homonym) "a" "bee" owns = false.
Proof.
  refine (proj1 (proj2 (family_relation_replaces_ownership_edge (mk_family "Bee" "his wife") "a"
            (process_media_company (company "Bee" 60) "a"
               (process_html_file (mk_page "A" "" "" [] [] []) init)) _ _ _)));
    [discriminate | vm_compute; lia | discriminate].
Defined.

(** ** Runs in which the pass cannot fail *)

Module HoldingFacts.

Lemma list_prod_nil_r {A B : Type} (l : list A) : list_prod l (@nil B) = [].
Proof. induction l as [|x l IH]; [reflexivity | exact IH]. Qed.

Lemma get_edge_add_node n a g u v : get_edge (add_node n a g) u v = get_edge g u v.
Proof. unfold get_edge. rewrite adj_add_node. reflexivity. Qed.

(** Registering an entity and adding an [owns] edge to it from [o]. *)
Lemma hold_step oid st o k i n r p dsc :
  holdings_only oid st ->
  let st' := on_graph (add_edge o k (mk_edata (Some owns) p dsc))
               (append_relationship r (on_graph (add_node k n) (set_entity k i st))) in
  holdings_only oid st' /\ holds_something o st' /\
  (forall x, holds_something x st -> holds_something x st').
Proof.
  intros (Hall & Hent & Hown) st'.
  assert (Hmono : forall u v, has_edge (graph st) u v = true ->
                    has_edge (graph st') u v = true).
  { intros u v Huv. unfold st'. cbn [graph on_graph append_relationship set_entity].
    rewrite has_edge_add_edge, MirrorFacts.has_edge_add_node, Huv. apply orb_true_r. }
  assert (Hnew : has_edge (graph st') o k = true).
  { unfold st'. cbn [graph on_graph append_relationship set_entity].
    rewrite has_edge_add_edge, !String.eqb_refl. reflexivity. }
  split; [split; [|split]|split].
  - intros u v d. unfold st'. cbn [graph on_graph append_relationship set_entity].
    rewrite get_edge_add_edge, !get_edge_add_node.
    destruct (String.eqb u o && String.eqb v k)%bool; [|apply Hall].
    intros E. injection E as <-. reflexivity.
  - intros x Hx. unfold st' in Hx. cbn [entities on_graph append_relationship set_entity] in Hx.
    apply keys_set_In in Hx. destruct Hx as [->|Hx]; [exists o; exact Hnew|].
    destruct (Hent x Hx) as [u Hu]. exists u. apply Hmono. exact Hu.
  - intros x Hx Hne. destruct (Hown x Hx Hne) as [v Hv]. exists v. apply Hmono. exact Hv.
  - exists k. exact Hnew.
  - intros x [v Hv]. exists v. apply Hmono. exact Hv.
Qed.

Section Operations.
Context `{Builtins}.

Lemma company_holding oid div o st :
  holdings_only oid st ->
  let st' := process_media_company div o st in
  holdings_only oid st' /\
  (c_link div = true \/ holds_something o st -> holds_something o st').
Proof.
  intros Hh. cbn zeta. unfold process_media_company. destruct (c_link div); cbn [negb].
  - cbn zeta.
    match goal with
    | |- context [append_relationship ?r (on_graph (add_node ?k ?n) (set_entity ?k ?i st))] =>
        destruct (hold_step oid st o k i n r (Some (c_percentage div))
                    (Some (description r)) Hh) as (A & B & _)
    end.
    split; [exact A | intros _; exact B].
  - split; [exact Hh|]. intros [E|E]; [discriminate | exact E].
Qed.

Lemma outlet_holding oid div o st :
  holdings_only oid st ->
  let st' := process_media_outlet div o st in
  holdings_only oid st' /\
  (o_link div = true \/ holds_something o st -> holds_something o st').
Proof.
  intros Hh. cbn zeta. unfold process_media_outlet. destruct (o_link div); cbn [negb].
  - cbn zeta.
    match goal with
    | |- context [append_relationship ?r (on_graph (add_node ?k ?n) (set_entity ?k ?i st))] =>
        destruct (hold_step oid st o k i n r (Some (o_percentage div))
                    (Some (description r)) Hh) as (A & B & _)
    end.
    split; [exact A | intros _; exact B].
  - split; [exact Hh|]. intros [E|E]; [discriminate | exact E].
Qed.

Lemma fold_holding {A : Type} (f : extractor -> A -> extractor) (link : A -> bool)
    (oid : option string) (o : string) (l : list A) :
  (forall st x, holdings_only oid st ->
     holdings_only oid (f st x) /\
     (link x = true \/ holds_something o st -> holds_something o (f st x))) ->
  forall st, holdings_only oid st ->
    holdings_only oid (fold_left f l st) /\
    (existsb link l = true \/ holds_something o st -> holds_something o (fold_left f l st)).
Proof.
  intros Hf. induction l as [|x l IH]; intros st Hh; cbn [fold_left existsb].
  - split; [exact Hh|]. intros [E|E]; [discriminate | exact E].
  - destruct (Hf st x Hh) as [A1 B1]. destruct (IH _ A1) as [A2 B2].
    split; [exact A2|]. intros E. apply B2. destruct E as [E|E].
    + apply orb_true_iff in E.
      destruct E as [E|E]; [right; apply B1; left; exact E | left; exact E].
    + right. apply B1. right. exact E.
Qed.
Lemma page_holding pg st :
  p_family pg = [] -> page_has_holding pg = true ->
  holdings_only None st -> holdings_only None (process_html_file pg st).
Proof.
  intros Hfam Hhold (Hall & Hent & Hown). unfold process_html_file. cbn zeta.
  rewrite Hfam. cbn [fold_left].
  set (oid := Normalizer.sanitize_id (p_owner_name pg)).
  match goal with
  | |- context [on_graph (add_node oid ?n) (set_owner oid ?i st)] =>
      set (st0 := on_graph (add_node oid n) (set_owner oid i st))
  end.
  assert (H0 : holdings_only (Some oid) st0).
  { split; [|split].
    - intros u v d. unfold st0. cbn [graph on_graph set_owner].
      rewrite get_edge_add_node. apply Hall.
    - intros k Hk. destruct (Hent k Hk) as [u Hu]. exists u. unfold st0.
      cbn [graph on_graph set_owner]. rewrite MirrorFacts.has_edge_add_node. exact Hu.
    - intros k Hk Hne. unfold st0 in Hk. cbn [owners on_graph set_owner] in Hk.
      apply keys_set_In in Hk. destruct Hk as [->|Hk]; [congruence|].
      destruct (Hown k Hk) as [v Hv]; [discriminate|]. exists v. unfold st0.
      cbn [graph on_graph set_owner]. rewrite MirrorFacts.has_edge_add_node. exact Hv. }
  destruct (fold_holding (fun st div => process_media_company div oid st) c_link
              (Some oid) oid (p_companies pg)
              (fun st x => company_holding (Some oid) x oid st) st0 H0) as [A1 B1].
  destruct (fold_holding (fun st div => process_media_outlet div oid st) o_link
              (Some oid) oid (p_outlets pg)
              (fun st x => outlet_holding (Some oid) x oid st) _ A1) as [A2 B2].
  assert (Hheld : holds_something oid
            (fold_left (fun st div => process_media_outlet div oid st) (p_outlets pg)
               (fold_left (fun st div => process_media_company div oid st)
                  (p_companies pg) st0))).
  { unfold page_has_holding in Hhold. apply orb_true_iff in Hhold.
    destruct Hhold as [E|E]; [apply B2; right; apply B1; left; exact E|].
    apply B2. left. exact E. }
  destruct A2 as (C1 & C2 & C3). split; [exact C1|]. split; [exact C2|].
  intros k Hk _. destruct (String.eqb_spec k oid) as [->|Hne]; [exact Hheld|].
  apply (C3 k Hk). congruence.
Qed.

Lemma direct_phase_holding pages :
  (forall pg, In pg pages -> p_family pg = [] /\ page_has_holding pg = true) ->
  holdings_only None (direct_phase pages).
Proof.
  unfold direct_phase. assert (Hinit : holdings_only None init).
  { split; [intros u v d Hd; discriminate Hd|]. split; intros k []. }
  revert Hinit. generalize init as st.
  induction pages as [|pg pages IH]; intros st Hst Hpages; [exact Hst|].
  cbn [fold_left]. apply IH.
  - destruct (Hpages pg (or_introl eq_refl)) as [A B]. apply page_holding; assumption.
  - intros pg' Hin. apply Hpages. right. exact Hin.
Qed.
End Operations.

End HoldingFacts.

(** X17.  With no owner or no entity the pass does nothing: the state is
    unchanged and no error is logged. *)
Theorem pass_without_pairs_is_idle (st : extractor) :
  owners st = [] \/ entities st = [] ->
  calculate_indirect_ownership st = (st, None).
Proof.
  intros H. unfold calculate_indirect_ownership. rewrite indirect_pass_pairs.
  assert (E : list_prod (keys (owners st)) (keys (entities st)) = []).
  { destruct H as [-> | ->]; [reflexivity | apply HoldingFacts.list_prod_nil_r]. }
  rewrite E. reflexivity.
Qed.

Lemma pass_without_pairs_witness :
  calculate_indirect_ownership init = (init, None).
Proof. apply pass_without_pairs_is_idle. left. reflexivity. Defined.

(** X18.  A run over pages none of which names a family member and each of
    which lists at least one company or outlet block with a link
    completes the pass without a logged error. *)
Theorem holdings_only_run_completes `{Builtins} (pages : list page) :
  (forall pg, In pg pages -> p_family pg = [] /\ page_has_holding pg = true) ->
  snd (calculate_indirect_ownership (direct_phase pages)) = None.
Proof.
  intros Hpages. set (st := direct_phase pages).
  destruct (HoldingFacts.direct_phase_holding pages Hpages) as (Hall & Hent & Hown).
  fold st in Hall, Hent, Hown.
  pose proof (direct_phase_wf pages) as Hwf. fold st in Hwf.
  destruct (ownership_graph_spec (graph st) Hwf) as (_ & _ & Hnodes). cbn zeta in Hnodes.
  assert (Hty : forall u v, has_edge (graph st) u v = true ->
                  has_typed_edge (graph st) u v owns = true).
  { intros u v Huv. rewrite has_edge_get_edge in Huv. unfold has_typed_edge.
    destruct (get_edge (graph st) u v) as [d|] eqn:Ed; [|discriminate].
    rewrite (Hall u v d Ed). reflexivity. }
  apply (proj1 (pass_completion st)). intros o e Ho He. split; apply Hnodes.
  - destruct (Hown o Ho) as [v Hv]; [discriminate|]. exists o, v. auto.
  - destruct (Hent e He) as [u Hu]. exists u, e. auto.
Qed.

Lemma holdings_only_run_witness :
  snd (calculate_indirect_ownership st_chain) = None.
Proof.
  apply (holdings_only_run_completes
           [owner_page "A" [company "B" 60]; owner_page "B" [company "C" 50]]).
  intros pg [<-|[<-|[]]]; split; reflexivity.
Defined.

(** X19.  After a full run every row of the relationship table refers,
    by its source and by its target, to the identifier of a row of the
    owner table or of the entity table. *)
Theorem table_rows_reference_tables `{Builtins} (pages : list page) :
  let net := extract_all_data pages in
  forall r, In r (net_relationships net) ->
    In (source_id r) (map i_id (net_owners net ++ net_entities net)) /\
    In (target_id r) (map i_id (net_owners net ++ net_entities net)).
Proof.
  cbn zeta. unfold extract_all_data.
  cbn [build_network net_owners net_entities net_relationships].
  set (st := direct_phase pages). set (st' := fst (calculate_indirect_ownership st)).
  destruct (calculate_outcome st) as (_ & Eo & Ee & _). cbn zeta in Eo, Ee.
  fold st' in Eo, Ee.
  destruct (direct_phase_reg pages) as [Ho He]. fold st in Ho, He.
  destruct (registry_wf_ids _ Ho) as [A _], (registry_wf_ids _ He) as [B _].
  assert (Hreg : forall k, registered st' k ->
            In k (map i_id (values (owners st') ++ values (entities st')))).
  { intros k Hk. rewrite map_app, Eo, Ee, A, B. apply in_or_app.
    unfold registered in Hk. rewrite Eo, Ee in Hk. exact Hk. }
  destruct (calculate_references_ok st (proj1 (direct_phase_ok pages))) as [_ Hrels].
  fold st' in Hrels. rewrite Forall_forall in Hrels.
  intros r Hr. destruct (Hrels r Hr) as (S & T & _). auto.
Qed.

Lemma table_rows_reference_witness :
  let net := extract_all_data
               [owner_page "A" [company "B" 60]; owner_page "B" [company "C" 50]] in
  In (indirect_relationship "a" "c" 30 "C") (net_relationships net) /\
  In "a" (map i_id (net_owners net ++ net_entities net)) /\
  In "c" (map i_id (net_owners net ++ net_entities net)).
Proof.
  cbn zeta.
  assert (Hin : In (indirect_relationship "a" "c" 30 "C")
            (net_relationships
               (extract_all_data
                  [owner_page "A" [company "B" 60]; owner_page "B" [company "C" 50]])))
    by (vm_compute; tauto).
  split; [exact Hin|].
  exact (table_rows_reference_tables _ _ Hin).
Defined.

(** ** The recorded relationships: list and graph *)

Import RowProps.

Module RowFacts.

Lemma rel_type_eqb_eq t t' : rel_type_eqb t t' = true <-> t = t'.
Proof. destruct t, t'; cbn; split; congruence. Qed.

Lemma typed_edge_only g u v t0 :
  has_typed_edge g u v t0 = true ->
  forall t, has_typed_edge g u v t = rel_type_eqb t t0.
Proof.
  unfold has_typed_edge. destruct (get_edge g u v) as [d|]; [|discriminate].
  destruct (e_type d) as [t1|]; [|discriminate].
  intros E t. apply rel_type_eqb_eq in E. subst t1. reflexivity.
Qed.


Section Operations.
Context `{Builtins}.




Lemma company_rows div o st :
  relationships (process_media_company div o st) =
  relationships st ++ company_relationship o div.
Proof.
  unfold company_relationship, process_media_company.
  destruct (c_link div); cbn [negb]; [reflexivity | symmetry; apply app_nil_r].
Qed.

Lemma outlet_rows div o st :
  relationships (process_media_outlet div o st) =
  relationships st ++ outlet_relationship o div.
Proof.
  unfold outlet_relationship, process_media_outlet.
  destruct (o_link div); cbn [negb]; [reflexivity | symmetry; apply app_nil_r].
Qed.

Lemma family_rows text o st :
  relationships (process_family_member text o st) =
  relationships st ++ family_relationship o text.
Proof.
  unfold family_relationship, process_family_member.
  destruct (String.eqb (f_name text) "" || Nat.ltb (py_len (f_name text)) 3)%bool;
    [symmetry; apply app_nil_r|].
  cbn zeta. destruct (String.eqb (Normalizer.sanitize_id (f_name text)) o);
    [symmetry; apply app_nil_r|].
  destruct (negb (dict_mem (Normalizer.sanitize_id (f_name text)) (owners st)) &&
            negb (dict_mem (Normalizer.sanitize_id (f_name text)) (entities st)))%bool;
    reflexivity.
Qed.

Lemma fold_rows {X : Type} (f : extractor -> X -> extractor)
    (rows : X -> list relationship) (l : list X) :
  (forall st x, relationships (f st x) = relationships st ++ rows x) ->
  forall st, relationships (fold_left f l st) = relationships st ++ flat_map rows l.
Proof.
  intros Hf. induction l as [|x l IH]; intros st; cbn [fold_left flat_map].
  - symmetry. apply app_nil_r.
  - rewrite IH, Hf, app_assoc. reflexivity.
Qed.

Lemma page_rows pg st :
  relationships (process_html_file pg st) = relationships st ++ page_relationships pg.
Proof.
  unfold process_html_file, page_relationships. cbn zeta.
  rewrite (fold_rows _ (family_relationship (Normalizer.sanitize_id (p_owner_name pg))))
    by (intros; apply family_rows).
  rewrite (fold_rows _ (outlet_relationship (Normalizer.sanitize_id (p_owner_name pg))))
    by (intros; apply outlet_rows).
  rewrite (fold_rows _ (company_relationship (Normalizer.sanitize_id (p_owner_name pg))))
    by (intros; apply company_rows).
  cbn [relationships on_graph set_owner]. rewrite <- !app_assoc. reflexivity.
Qed.

Lemma direct_rows pages :
  relationships (direct_phase pages) = direct_relationships pages.
Proof.
  unfold direct_phase, direct_relationships.
  rewrite (fold_rows _ page_relationships) by (intros; apply page_rows). reflexivity.
Qed.
End Operations.

Lemma indirect_rows st :
  relationships (fst (calculate_indirect_ownership st)) =
  relationships st ++ indirect_relationships st.
Proof. apply calculate_outcome. Qed.

Lemma indirect_rows_typed st r :
  In r (indirect_relationships st) ->
  r_type r = indirect_owns /\
  forall t, has_typed_edge (graph (fst (calculate_indirect_ownership st)))
              (source_id r) (target_id r) t = rel_type_eqb t indirect_owns.
Proof.
  unfold indirect_relationships. rewrite <- emitted_outcome. intros Hr. split.
  - destruct (emitted_In st r Hr) as (o & e & i & _ & _ & _ & _ & _ & ->). reflexivity.
  - apply typed_edge_only. apply (pass_graph_outcome st). exact Hr.
Qed.

End RowFacts.



(** C9.  After a full run the rows of the relationship table are the
    direct relationships of the pages, each page's company, outlet and
    family relationships in the order of the blocks and the pages in the
    order of the run, followed by the relationships of the
    indirect-ownership pass; the direct relationships have types other
    than [indirect_owns], those of the pass have type [indirect_owns],
    and the number of rows is the number of direct relationships plus
    the number of relationships of the pass.  In any state the pass keeps
    the list it finds and appends its relationships. *)
Theorem relationship_rows_direct_then_indirect `{Builtins} :
  (forall pages,
     let st := direct_phase pages in
     let rows := net_relationships (extract_all_data pages) in
     relationships st = direct_relationships pages /\
     rows = direct_relationships pages ++ indirect_relationships st /\
     Forall is_direct (direct_relationships pages) /\
     Forall (fun r => r_type r = indirect_owns) (indirect_relationships st) /\
     List.length rows =
       List.length (direct_relationships pages) +
       List.length (indirect_relationships st)) /\
  (forall st,
     relationships (fst (calculate_indirect_ownership st)) =
       relationships st ++ indirect_relationships st /\
     emitted st = indirect_relationships st) /\
  (forall pages pg,
     direct_relationships (pages ++ [pg]) =
       direct_relationships pages ++ page_relationships pg).
Proof.
  split; [|split].
  - intros pages st rows. subst st rows. unfold extract_all_data.
    cbn [build_network net_relationships].
    rewrite RowFacts.indirect_rows, RowFacts.direct_rows, length_app.
    split; [reflexivity|]. split; [reflexivity|]. split; [|split; [|reflexivity]].
    + rewrite <- RowFacts.direct_rows. apply direct_phase_ok.
    + apply Forall_forall. intros r Hr. apply (RowFacts.indirect_rows_typed _ r Hr).
  - intros st. split; [apply RowFacts.indirect_rows | apply emitted_outcome].
  - intros pages pg. unfold direct_relationships. rewrite flat_map_app. cbn [flat_map].
    rewrite app_nil_r. reflexivity.
Qed.
